(** * polkit-no-script: the keyfile policy compiler and its authority

    A shallow embedding of
      - src/polkitbackend/polkitbackendpolicyfile.c       (module [PolicyFile])
      - src/polkitbackend/polkitbackendkeyfileauthority.c (module [KeyfileAuthority])
    together with the GLib primitives they call (module [GLib]) and the
    evaluation contract of the specification, sections 4.4 and 4.5
    (module [Contract]).

    Conventions.
      - A NULL-terminated, [next]-linked chain of heap nodes, each node owned by
        its predecessor, is a [list]; the [next] field is the tail of the list.
      - A C [int]-valued enumeration whose header is not part of the tree is a
        [Z]; its enumerators are fields of the record [PolicyFile.Header].
      - Output on [stderr] of the parser is not part of the model; the log of
        the authority is.
      - A call that can end the process says how it ends: see [outcome]. *)

From Stdlib Require Import ZArith String Ascii List Bool Lia Permutation Sorted.
From stdpp Require Import base option list gmap strings sorting.

Local Open Scope Z_scope.

(** ** How a call ends

    A call returns, or the process ends inside it: a [g_assert] that fails
    calls [abort], and a field read through a NULL pointer is a segmentation
    fault.  Nothing of the state survives either of the two. *)

Inductive outcome (A : Type) : Type :=
| Returns (a : A)
| AssertionFailed
| NullDereference.
Arguments Returns {A} a.
Arguments AssertionFailed {A}.
Arguments NullDereference {A}.

#[global]
Instance outcome_bind : MBind outcome :=
  fun A B f o =>
    match o with
    | Returns a => f a
    | AssertionFailed => AssertionFailed
    | NullDereference => NullDereference
    end.

#[global]
Instance outcome_fmap : FMap outcome :=
  fun A B f o =>
    match o with
    | Returns a => Returns (f a)
    | AssertionFailed => AssertionFailed
    | NullDereference => NullDereference
    end.

(** ** GLib and libc primitives *)

Module GLib.

(** [g_ascii_isspace]: space, form feed, newline, carriage return,
    horizontal and vertical tab. *)
Definition g_ascii_isspace (c : ascii) : bool :=
  let n := N_of_ascii c in
  (n =? 32)%N || (9 <=? n)%N && (n <=? 13)%N.

Definition g_ascii_tolower (c : ascii) : ascii :=
  let n := N_of_ascii c in
  if (65 <=? n)%N && (n <=? 90)%N then ascii_of_N (n + 32) else c.

(** [g_ascii_strdown (s, -1)]: a lower-cased copy of the whole string. *)
Fixpoint g_ascii_strdown (s : string) : string :=
  match s with
  | EmptyString => EmptyString
  | String c s' => String (g_ascii_tolower c) (g_ascii_strdown s')
  end.

(** [g_strchug]: drop leading white space. *)
Fixpoint g_strchug (s : string) : string :=
  match s with
  | EmptyString => EmptyString
  | String c s' => if g_ascii_isspace c then g_strchug s' else s
  end.

(** [g_strchomp]: drop trailing white space. *)
Fixpoint g_strchomp (s : string) : string :=
  match s with
  | EmptyString => EmptyString
  | String c s' =>
      match g_strchomp s' with
      | EmptyString => if g_ascii_isspace c then EmptyString else String c EmptyString
      | r => String c r
      end
  end.

(** [g_strstrip(s)] is [g_strchomp (g_strchug (s))]. *)
Definition g_strstrip (s : string) : string := g_strchomp (g_strchug s).

Definition g_str_equal (a b : string) : bool := String.eqb a b.

Definition g_str_has_prefix (str pre : string) : bool := String.prefix pre str.

Definition g_str_has_suffix (str suffix : string) : bool :=
  let n := String.length str in
  let m := String.length suffix in
  if (n <? m)%nat then false
  else String.eqb (String.substring (n - m) m str) suffix.

(** [strrchr (s, c)] for a character [c] other than NUL: the part of [s]
    that starts at the last occurrence of [c], or NULL. *)
Fixpoint strrchr (s : string) (c : ascii) : option string :=
  match s with
  | EmptyString => None
  | String x s' =>
      match strrchr s' c with
      | Some r => Some r
      | None => if Ascii.eqb x c then Some s else None
      end
  end.

(** Pointer increment on a string: [p + 1]. *)
Definition str_plus_1 (s : string) : string :=
  match s with
  | EmptyString => EmptyString
  | String _ s' => s'
  end.

(** [strcmp] compares two strings byte by byte, the bytes taken as unsigned
    characters.  The C standard fixes the sign of the answer and nothing
    else: how far from zero an answer other than zero lies is the choice of
    the C library, and a parameter of the model. *)
Record Libc : Type := mkLibc {
  strcmp_magnitude : string -> string -> positive
}.

Definition strcmp (libc : Libc) (a b : string) : Z :=
  match String.compare a b with
  | Lt => Z.neg (strcmp_magnitude libc a b)
  | Eq => 0
  | Gt => Z.pos (strcmp_magnitude libc a b)
  end.

(** [g_strcmp0] on two non-NULL strings is [strcmp]. *)
Definition g_strcmp0 (libc : Libc) (a b : string) : Z := strcmp libc a b.

(** *** Key files

    A [GKeyFile] is an opaque GLib object.  The model keeps, for every group
    and key, what each typed getter answers for the stored value: [None] is
    the getter's error [G_KEY_FILE_ERROR_INVALID_VALUE] (bad escape sequence,
    text that is no boolean, ...). *)

Inductive GKeyFileError : Set :=
| G_KEY_FILE_ERROR_GROUP_NOT_FOUND
| G_KEY_FILE_ERROR_KEY_NOT_FOUND
| G_KEY_FILE_ERROR_INVALID_VALUE.

Record KeyValue : Type := mkKeyValue {
  as_string : option string;
  as_string_list : option (list string);
  as_boolean : option bool
}.

Abbreviation GKeyFile := (gmap string (gmap string KeyValue)).

(** A getter returns its value, or sets the [GError] out-parameter. *)
Inductive gresult (A : Type) : Type :=
| GValue (a : A)
| GErrorSet (e : GKeyFileError).
Arguments GValue {A} a.
Arguments GErrorSet {A} e.

Definition g_key_file_has_group (kf : GKeyFile) (group : string) : bool :=
  match kf !! group with
  | Some _ => true
  | None => false
  end.

(** [g_key_file_has_key (kf, group, key, NULL)]: FALSE also when the group
    does not exist. *)
Definition g_key_file_has_key (kf : GKeyFile) (group key : string) : bool :=
  match kf !! group with
  | Some g => match g !! key with Some _ => true | None => false end
  | None => false
  end.

Definition g_key_file_get {A : Type} (decode : KeyValue -> option A)
    (kf : GKeyFile) (group key : string) : gresult A :=
  match kf !! group with
  | None => GErrorSet G_KEY_FILE_ERROR_GROUP_NOT_FOUND
  | Some g =>
      match g !! key with
      | None => GErrorSet G_KEY_FILE_ERROR_KEY_NOT_FOUND
      | Some v =>
          match decode v with
          | Some a => GValue a
          | None => GErrorSet G_KEY_FILE_ERROR_INVALID_VALUE
          end
      end
  end.

Definition g_key_file_get_string_list := g_key_file_get as_string_list.
Definition g_key_file_get_string := g_key_file_get as_string.
Definition g_key_file_get_boolean := g_key_file_get as_boolean.

(** *** The file system, as the two loaders see it

    [g_dir_open] followed by [g_dir_read_name] until NULL: the entry names of
    a directory in the order they are read, or [None] when the directory
    cannot be opened.  [g_key_file_load_from_file]: the key file parsed by
    GLib, or [None] when GLib reports an error. *)

Record FileSystem : Type := mkFileSystem {
  g_dir_open : string -> option (list string);
  g_key_file_load_from_file : string -> option GKeyFile
}.

(** *** GIO file monitors *)

Inductive GFileMonitorEvent : Set :=
| G_FILE_MONITOR_EVENT_CHANGED
| G_FILE_MONITOR_EVENT_CHANGES_DONE_HINT
| G_FILE_MONITOR_EVENT_DELETED
| G_FILE_MONITOR_EVENT_CREATED
| G_FILE_MONITOR_EVENT_ATTRIBUTE_CHANGED
| G_FILE_MONITOR_EVENT_PRE_UNMOUNT
| G_FILE_MONITOR_EVENT_UNMOUNTED
| G_FILE_MONITOR_EVENT_MOVED
| G_FILE_MONITOR_EVENT_RENAMED
| G_FILE_MONITOR_EVENT_MOVED_IN
| G_FILE_MONITOR_EVENT_MOVED_OUT.

(** A [GFile] handed to a monitor callback, reduced to what the callback
    reads of it. *)
Record GFile : Set := mkGFile {
  g_file_get_basename : string
}.

End GLib.

Export GLib.

(** ** polkitbackendpolicyfile.c *)

Module PolicyFile.

(** [polkitbackendpolicyfile.h] is not part of the tree.  The numeric values
    of the enumerators of [PolkitResponse] and of the [PF_CONSTRAINT_*] flags
    are therefore parameters of the model; they matter because [g_new0]
    zero-fills a fresh [Policy]. *)
Record Header : Set := mkHeader {
  PK_RESPONSE_UNHANDLED : Z;
  PK_RESPONSE_NO : Z;
  PK_RESPONSE_YES : Z;
  PK_RESPONSE_AUTH_SELF : Z;
  PK_RESPONSE_AUTH_SELF_KEEP : Z;
  PK_RESPONSE_AUTH_ADMIN : Z;
  PK_RESPONSE_AUTH_ADMIN_KEEP : Z;
  PF_CONSTRAINT_ACTIONS : Z;
  PF_CONSTRAINT_ACTION_CONTAINS : Z;
  PF_CONSTRAINT_UNIX_GROUPS : Z;
  PF_CONSTRAINT_NET_GROUPS : Z;
  PF_CONSTRAINT_RESULT : Z;
  PF_CONSTRAINT_RESULT_INVERSE : Z;
  PF_CONSTRAINT_UNIX_NAMES : Z;
  PF_CONSTRAINT_SUBJECT_ACTIVE : Z;
  PF_CONSTRAINT_SUBJECT_LOCAL : Z
}.

Definition POLICY_SECTION : string := "Policy".

(** Action ID to match all possible IDs. *)
Definition POLICY_MATCH_ALL : string := "*".

(** [%wheel%] is swapped for the wheel group configured at build time. *)
Definition POLICY_MATCH_WHEEL : string := "%wheel%".
Definition POLICY_WHEEL_USER : string := "wheel".

(** [struct Policy], without its [next] link.  A [gchar **] is [None] when
    NULL. *)
Record Policy : Type := mkPolicy {
  id : string;
  constraints : Z;
  actions : option (list string);
  n_actions : nat;
  action_contains : option (list string);
  n_action_contains : nat;
  unix_groups : option (list string);
  n_unix_groups : nat;
  net_groups : option (list string);
  n_net_groups : nat;
  unix_names : option (list string);
  n_unix_names : nat;
  response : Z;
  response_inverse : Z;
  require_active : bool;
  require_local : bool
}.

(** [file->rules]: the [normal] and the [admin] chain of one rule file. *)
Record PolicyRules : Type := mkPolicyRules {
  normal : list Policy;
  admin : list Policy
}.

(** [struct PolicyFile], without its [next] link. *)
Record PolicyFile : Type := mkPolicyFile {
  rules : PolicyRules
}.

(** [policy = g_new0 (Policy, 1); policy->id = g_strdup (section_id);] *)
Definition policy_new0 (section_id : string) : Policy :=
  {| id := section_id; constraints := 0;
     actions := None; n_actions := 0;
     action_contains := None; n_action_contains := 0;
     unix_groups := None; n_unix_groups := 0;
     net_groups := None; n_net_groups := 0;
     unix_names := None; n_unix_names := 0;
     response := 0; response_inverse := 0;
     require_active := false; require_local := false |}.

(** [policy->constraints |= flag;] *)
Definition or_constraint (p : Policy) (flag : Z) : Policy :=
  {| id := id p; constraints := Z.lor (constraints p) flag;
     actions := actions p; n_actions := n_actions p;
     action_contains := action_contains p; n_action_contains := n_action_contains p;
     unix_groups := unix_groups p; n_unix_groups := n_unix_groups p;
     net_groups := net_groups p; n_net_groups := n_net_groups p;
     unix_names := unix_names p; n_unix_names := n_unix_names p;
     response := response p; response_inverse := response_inverse p;
     require_active := require_active p; require_local := require_local p |}.

(** [policy->actions = l; policy->n_actions = n_segments;] *)
Definition set_actions (p : Policy) (l : list string) : Policy :=
  {| id := id p; constraints := constraints p;
     actions := Some l; n_actions := length l;
     action_contains := action_contains p; n_action_contains := n_action_contains p;
     unix_groups := unix_groups p; n_unix_groups := n_unix_groups p;
     net_groups := net_groups p; n_net_groups := n_net_groups p;
     unix_names := unix_names p; n_unix_names := n_unix_names p;
     response := response p; response_inverse := response_inverse p;
     require_active := require_active p; require_local := require_local p |}.

Definition set_action_contains (p : Policy) (l : list string) : Policy :=
  {| id := id p; constraints := constraints p;
     actions := actions p; n_actions := n_actions p;
     action_contains := Some l; n_action_contains := length l;
     unix_groups := unix_groups p; n_unix_groups := n_unix_groups p;
     net_groups := net_groups p; n_net_groups := n_net_groups p;
     unix_names := unix_names p; n_unix_names := n_unix_names p;
     response := response p; response_inverse := response_inverse p;
     require_active := require_active p; require_local := require_local p |}.

Definition set_unix_groups (p : Policy) (l : list string) : Policy :=
  {| id := id p; constraints := constraints p;
     actions := actions p; n_actions := n_actions p;
     action_contains := action_contains p; n_action_contains := n_action_contains p;
     unix_groups := Some l; n_unix_groups := length l;
     net_groups := net_groups p; n_net_groups := n_net_groups p;
     unix_names := unix_names p; n_unix_names := n_unix_names p;
     response := response p; response_inverse := response_inverse p;
     require_active := require_active p; require_local := require_local p |}.

Definition set_net_groups (p : Policy) (l : list string) : Policy :=
  {| id := id p; constraints := constraints p;
     actions := actions p; n_actions := n_actions p;
     action_contains := action_contains p; n_action_contains := n_action_contains p;
     unix_groups := unix_groups p; n_unix_groups := n_unix_groups p;
     net_groups := Some l; n_net_groups := length l;
     unix_names := unix_names p; n_unix_names := n_unix_names p;
     response := response p; response_inverse := response_inverse p;
     require_active := require_active p; require_local := require_local p |}.

Definition set_unix_names (p : Policy) (l : list string) : Policy :=
  {| id := id p; constraints := constraints p;
     actions := actions p; n_actions := n_actions p;
     action_contains := action_contains p; n_action_contains := n_action_contains p;
     unix_groups := unix_groups p; n_unix_groups := n_unix_groups p;
     net_groups := net_groups p; n_net_groups := n_net_groups p;
     unix_names := Some l; n_unix_names := length l;
     response := response p; response_inverse := response_inverse p;
     require_active := require_active p; require_local := require_local p |}.

Definition set_response (p : Policy) (r : Z) : Policy :=
  {| id := id p; constraints := constraints p;
     actions := actions p; n_actions := n_actions p;
     action_contains := action_contains p; n_action_contains := n_action_contains p;
     unix_groups := unix_groups p; n_unix_groups := n_unix_groups p;
     net_groups := net_groups p; n_net_groups := n_net_groups p;
     unix_names := unix_names p; n_unix_names := n_unix_names p;
     response := r; response_inverse := response_inverse p;
     require_active := require_active p; require_local := require_local p |}.

Definition set_response_inverse (p : Policy) (r : Z) : Policy :=
  {| id := id p; constraints := constraints p;
     actions := actions p; n_actions := n_actions p;
     action_contains := action_contains p; n_action_contains := n_action_contains p;
     unix_groups := unix_groups p; n_unix_groups := n_unix_groups p;
     net_groups := net_groups p; n_net_groups := n_net_groups p;
     unix_names := unix_names p; n_unix_names := n_unix_names p;
     response := response p; response_inverse := r;
     require_active := require_active p; require_local := require_local p |}.

Definition set_require_active (p : Policy) (b : bool) : Policy :=
  {| id := id p; constraints := constraints p;
     actions := actions p; n_actions := n_actions p;
     action_contains := action_contains p; n_action_contains := n_action_contains p;
     unix_groups := unix_groups p; n_unix_groups := n_unix_groups p;
     net_groups := net_groups p; n_net_groups := n_net_groups p;
     unix_names := unix_names p; n_unix_names := n_unix_names p;
     response := response p; response_inverse := response_inverse p;
     require_active := b; require_local := require_local p |}.

Definition set_require_local (p : Policy) (b : bool) : Policy :=
  {| id := id p; constraints := constraints p;
     actions := actions p; n_actions := n_actions p;
     action_contains := action_contains p; n_action_contains := n_action_contains p;
     unix_groups := unix_groups p; n_unix_groups := n_unix_groups p;
     net_groups := net_groups p; n_net_groups := n_net_groups p;
     unix_names := unix_names p; n_unix_names := n_unix_names p;
     response := response p; response_inverse := response_inverse p;
     require_active := require_active p; require_local := b |}.

Section Parser.

Variable h : Header.

(** Quickly turn the string into a usable internal response. *)
Definition policy_string_to_result (inp : string) : Z :=
  let comparison := g_ascii_strdown inp in
  if g_str_equal comparison "no" then PK_RESPONSE_NO h
  else if g_str_equal comparison "yes" then PK_RESPONSE_YES h
  else if g_str_equal comparison "auth_self" then PK_RESPONSE_AUTH_SELF h
  else if g_str_equal comparison "auth_self_keep" then PK_RESPONSE_AUTH_SELF_KEEP h
  else if g_str_equal comparison "auth_admin" then PK_RESPONSE_AUTH_ADMIN h
  else if g_str_equal comparison "auth_admin_keep" then PK_RESPONSE_AUTH_ADMIN_KEEP h
  else PK_RESPONSE_UNHANDLED h.

(** Where a block of [policy_load] leaves control: at the statement after
    the block, with the policy as it then is, or at the label [handle_err],
    with the value the local [err] holds at the jump.  [err] starts as NULL
    and only a getter that fails sets it: [HandleErr None] is a jump with
    [err] still NULL. *)
Inductive step : Type :=
| Next (policy : Policy)
| HandleErr (err : option GKeyFileError).

(** The statements after a block are run when the block does not jump. *)
Definition and_then (s : step) (block : Policy -> step) : step :=
  match s with
  | Next policy => block policy
  | HandleErr err => HandleErr err
  end.

(** One of the five blocks of [policy_load] that read a string list:
    [if (g_key_file_has_key (...)) { field = g_key_file_get_string_list (...);
    if (err) goto handle_err; n_field = n_segments; constraints |= flag; }]. *)
Definition load_string_list (file : GKeyFile) (section_id key : string)
    (set : Policy -> list string -> Policy) (flag : Z) (policy : Policy) : step :=
  if g_key_file_has_key file section_id key then
    match g_key_file_get_string_list file section_id key with
    | GErrorSet e => HandleErr (Some e)
    | GValue l => Next (or_constraint (set policy l) flag)
    end
  else Next policy.

(** One of the two blocks that read a boolean. *)
Definition load_boolean (file : GKeyFile) (section_id key : string)
    (set : Policy -> bool -> Policy) (flag : Z) (policy : Policy) : step :=
  if g_key_file_has_key file section_id key then
    match g_key_file_get_boolean file section_id key with
    | GErrorSet e => HandleErr (Some e)
    | GValue b => Next (or_constraint (set policy b) flag)
    end
  else Next policy.

(** The [Result] block.  The jump for a text that is no keyword is taken
    after a getter that succeeded: [err] is NULL there. *)
Definition load_result (file : GKeyFile) (section_id : string) (policy : Policy)
    : step :=
  if g_key_file_has_key file section_id "Result" then
    match g_key_file_get_string file section_id "Result" with
    | GErrorSet e => HandleErr (Some e)
    | GValue result =>
        let policy := set_response policy (policy_string_to_result (g_strstrip result)) in
        if response policy =? PK_RESPONSE_UNHANDLED h then HandleErr None
        else Next (or_constraint policy (PF_CONSTRAINT_RESULT h))
    end
  else Next policy.

(** The [ResultInverse] block.  As in the source, the test after the
    assignment to [response_inverse] reads [policy->response]. *)
Definition load_result_inverse (file : GKeyFile) (section_id : string)
    (policy : Policy) : step :=
  if g_key_file_has_key file section_id "ResultInverse" then
    match g_key_file_get_string file section_id "ResultInverse" with
    | GErrorSet e => HandleErr (Some e)
    | GValue result =>
        let policy :=
          set_response_inverse policy (policy_string_to_result (g_strstrip result)) in
        if response policy =? PK_RESPONSE_UNHANDLED h then HandleErr None
        else Next (or_constraint policy (PF_CONSTRAINT_RESULT_INVERSE h))
    end
  else Next policy.

(** The label [handle_err]: the message of [err] is printed, the policy is
    freed and NULL is returned.  The argument [err->message] of the [fprintf]
    is read through [err]. *)
Definition handle_err (err : option GKeyFileError) : outcome (option Policy) :=
  match err with
  | None => NullDereference
  | Some _ => Returns None
  end.

(** Attempt to load a policy from the given section id and keyfile.
    [Returns None] is the NULL returned for a missing section and at the end
    of [handle_err]. *)
Definition policy_load (file : GKeyFile) (section_id : string)
    : outcome (option Policy) :=
  if negb (g_key_file_has_group file section_id) then Returns None
  else
    let policy := policy_new0 section_id in
    let s := load_string_list file section_id "Actions"
               set_actions (PF_CONSTRAINT_ACTIONS h) policy in
    let s := and_then s (load_string_list file section_id "ActionContains"
                           set_action_contains (PF_CONSTRAINT_ACTION_CONTAINS h)) in
    let s := and_then s (load_string_list file section_id "InUnixGroups"
                           set_unix_groups (PF_CONSTRAINT_UNIX_GROUPS h)) in
    let s := and_then s (load_string_list file section_id "InNetGroups"
                           set_net_groups (PF_CONSTRAINT_NET_GROUPS h)) in
    let s := and_then s (load_result file section_id) in
    let s := and_then s (load_result_inverse file section_id) in
    let s := and_then s (load_string_list file section_id "InUserNames"
                           set_unix_names (PF_CONSTRAINT_UNIX_NAMES h)) in
    let s := and_then s (load_boolean file section_id "SubjectActive"
                           set_require_active (PF_CONSTRAINT_SUBJECT_ACTIVE h)) in
    let s := and_then s (load_boolean file section_id "SubjectLocal"
                           set_require_local (PF_CONSTRAINT_SUBJECT_LOCAL h)) in
    match s with
    | Next policy => Returns (Some policy)
    | HandleErr err => handle_err err
    end.

(** The [for] loop of [policy_file_load_rules].  [last] is the local of that
    name, reduced to whether it is non-NULL: when it is, it points at the final
    node of [target], so that [last->next = p] appends [p].  The result pairs
    the [gboolean] returned with what [*target] holds on return. *)
Fixpoint policy_file_load_rules_loop (keyfile : GKeyFile) (sections : list string)
    (last : bool) (target : list Policy) : outcome (bool * list Policy) :=
  match sections with
  | [] => Returns (true, target)
  | s :: sections' =>
      match policy_load keyfile (g_strstrip s) with
      | Returns None => Returns (false, target)
      | Returns (Some p) =>
          if last then policy_file_load_rules_loop keyfile sections' true (target ++ [p])
          else policy_file_load_rules_loop keyfile sections' true [p]
      | AssertionFailed => AssertionFailed
      | NullDereference => NullDereference
      end
  end.

(** Attempt to load rules from the named section within the key file.  The
    getter that fails has set [err], whose message is printed. *)
Definition policy_file_load_rules (keyfile : GKeyFile) (section : string)
    (target : list Policy) : outcome (bool * list Policy) :=
  match g_key_file_get_string_list keyfile POLICY_SECTION section with
  | GErrorSet _ => Returns (false, target)
  | GValue sections => policy_file_load_rules_loop keyfile sections false target
  end.

(** [policy_file_new_from_path]: [Returns None] is NULL.  A loader that
    fails has set [err], whose message is printed.  A [PolicyFile] whose load
    fails half-way is freed with everything linked into it so far. *)
Definition policy_file_new_from_path (fs : FileSystem) (path : string)
    : outcome (option PolicyFile) :=
  match g_key_file_load_from_file fs path with
  | None => Returns None
  | Some keyf =>
      let ret := {| rules := {| normal := []; admin := [] |} |} in
      '(ok, rules_normal) ← policy_file_load_rules keyf "Rules" (normal (rules ret));
      let ret := {| rules := {| normal := rules_normal; admin := admin (rules ret) |} |} in
      if negb ok then Returns None
      else
        '(ok, rules_admin) ← policy_file_load_rules keyf "AdminRules" (admin (rules ret));
        let ret := {| rules := {| normal := normal (rules ret); admin := rules_admin |} |} in
        if negb ok then Returns None else Returns (Some ret)
  end.

End Parser.

End PolicyFile.

Export PolicyFile.

(** ** polkitbackendkeyfileauthority.c *)

Module KeyfileAuthority.

(** *** Types of libpolkit-gobject that the authority names *)

Inductive PolkitImplicitAuthorization : Set :=
| POLKIT_IMPLICIT_AUTHORIZATION_UNKNOWN
| POLKIT_IMPLICIT_AUTHORIZATION_NOT_AUTHORIZED
| POLKIT_IMPLICIT_AUTHORIZATION_AUTHENTICATION_REQUIRED
| POLKIT_IMPLICIT_AUTHORIZATION_ADMINISTRATOR_AUTHENTICATION_REQUIRED
| POLKIT_IMPLICIT_AUTHORIZATION_AUTHENTICATION_REQUIRED_RETAINED
| POLKIT_IMPLICIT_AUTHORIZATION_ADMINISTRATOR_AUTHENTICATION_REQUIRED_RETAINED
| POLKIT_IMPLICIT_AUTHORIZATION_AUTHORIZED.

Inductive PolkitIdentity : Set :=
| PolkitUnixUser (uid : Z)
| PolkitUnixGroup (gid : Z)
| PolkitUnixNetgroup (name : string).

Definition polkit_unix_user_new (uid : Z) : PolkitIdentity := PolkitUnixUser uid.

Inductive PolkitSubject : Set :=
| PolkitUnixProcess (pid : Z)
| PolkitUnixSession (session_id : string)
| PolkitSystemBusName (name : string).

Definition PolkitDetails : Set := list (string * string).

(** *** State *)

(** The lines [polkit_backend_authority_log] is called with.  The text of a
    [GError] is not modelled: an entry about a failure names the directory or
    the file it is about.  [LogErrorCompilingRules] is the line the second
    loop of [load_scripts] is written to log for a file that does not parse;
    the process ends while the arguments of that call are read, see
    [load_scripts_file], so that no run logs it. *)
Inductive LogEntry : Set :=
| LogLoadingRulesFromDirectory (dir_name : string)
| LogErrorOpeningRulesDirectory (dir_name : string)
| LogErrorCompilingRules (filename : string)
| LogFinishedLoading (num_scripts : nat)
| LogReloadingRules.

(** [struct _PolkitBackendKeyfileAuthorityPrivate]; [dir_monitors] is written
    by [setup_file_monitors] only and left out. *)
Record PolkitBackendKeyfileAuthorityPrivate : Type := mkPrivate {
  rules_dirs : option (list string);
  policy : list PolicyFile
}.

(** The authority object with what it has written to the log and the signals
    it has emitted, oldest first. *)
Record PolkitBackendKeyfileAuthority : Type := mkAuthority {
  priv : PolkitBackendKeyfileAuthorityPrivate;
  logged : list LogEntry;
  emitted : list string
}.

Definition polkit_backend_authority_log (authority : PolkitBackendKeyfileAuthority)
    (entry : LogEntry) : PolkitBackendKeyfileAuthority :=
  {| priv := priv authority;
     logged := logged authority ++ [entry];
     emitted := emitted authority |}.

Definition g_signal_emit_by_name (authority : PolkitBackendKeyfileAuthority)
    (signal : string) : PolkitBackendKeyfileAuthority :=
  {| priv := priv authority;
     logged := logged authority;
     emitted := emitted authority ++ [signal] |}.

(** [authority->priv->policy = chain;] *)
Definition set_policy (authority : PolkitBackendKeyfileAuthority)
    (chain : list PolicyFile) : PolkitBackendKeyfileAuthority :=
  {| priv := {| rules_dirs := rules_dirs (priv authority); policy := chain |};
     logged := logged authority;
     emitted := emitted authority |}.

(** *** Ordering of rule files *)

(** [rules_file_name_cmp]; [None] is a failed [g_assert], which aborts the
    process. *)
Definition rules_file_name_cmp (libc : Libc) (a b : string) : option Z :=
  a_base ← strrchr a "/";
  b_base ← strrchr b "/";
  let a_base := str_plus_1 a_base in
  let b_base := str_plus_1 b_base in
  let ret := g_strcmp0 libc a_base b_base in
  if ret =? 0 then
    (* /etc wins over /usr *)
    let ret := g_strcmp0 libc a b in
    if ret =? 0 then None else Some ret
  else Some ret.

(** [g_list_sort] is a stable merge sort that keeps the first of two elements
    when the comparison is not positive.  The list it returns is that of any
    stable sort, here insertion from the right; the first comparison that
    fails its assertion ends the run. *)
Fixpoint g_list_insert_sorted (compare_func : string -> string -> option Z)
    (data : string) (lst : list string) : option (list string) :=
  match lst with
  | [] => Some [data]
  | x :: lst' =>
      cmp ← compare_func data x;
      if cmp <=? 0 then Some (data :: lst)
      else tail ← g_list_insert_sorted compare_func data lst'; Some (x :: tail)
  end.

Fixpoint g_list_sort (lst : list string)
    (compare_func : string -> string -> option Z) : option (list string) :=
  match lst with
  | [] => Some []
  | x :: lst' =>
      sorted ← g_list_sort lst' compare_func;
      g_list_insert_sorted compare_func x sorted
  end.

(** *** Loading *)

(** [while ((name = g_dir_read_name (dir)) != NULL)]: the files of one
    directory that carry the rule suffix, each prepended to [files]. *)
Definition prepend_rule_files (dir_name : string) (names : list string)
    (files : list string) : list string :=
  fold_left
    (fun files name =>
       if g_str_has_suffix name ".keyrules"
       then (dir_name +:+ "/" +:+ name) :: files
       else files)
    names files.

(** Body of the first [for] loop of [load_scripts]. *)
Definition load_scripts_dir (fs : FileSystem)
    (st : list string * PolkitBackendKeyfileAuthority) (dir_name : string)
    : list string * PolkitBackendKeyfileAuthority :=
  let '(files, authority) := st in
  let authority :=
    polkit_backend_authority_log authority (LogLoadingRulesFromDirectory dir_name) in
  match g_dir_open fs dir_name with
  | None =>
      (files,
       polkit_backend_authority_log authority (LogErrorOpeningRulesDirectory dir_name))
  | Some names => (prepend_rule_files dir_name names files, authority)
  end.

(** The locals [last] and [num_scripts] of [load_scripts] next to the
    authority.  [ls_last] tells whether [last] is non-NULL; it then points at
    the final node of [authority->priv->policy]. *)
Record LoadState : Type := mkLoadState {
  ls_authority : PolkitBackendKeyfileAuthority;
  ls_last : bool;
  ls_num_scripts : nat
}.

Section Loader.

Variable libc : Libc.
Variable h : Header.
Variable fs : FileSystem.

(** Body of the second [for] loop of [load_scripts].  The call there hands
    [policy_file_new_from_path] the address of the local [err], which that
    function does not take and never writes: [err] is NULL when the file does
    not parse, and the argument [err->message] of the log call is read
    through it. *)
Definition load_scripts_file (st : LoadState) (filename : string)
    : outcome LoadState :=
  let authority := ls_authority st in
  file ← policy_file_new_from_path h fs filename;
  match file with
  | None => NullDereference
  | Some file =>
      Returns
        {| ls_authority :=
             if ls_last st
             then set_policy authority (policy (priv authority) ++ [file])
             else set_policy authority [file];
           ls_last := true;
           ls_num_scripts := S (ls_num_scripts st) |}
  end.

(** The directories the first loop visits: none when [rules_dirs] is NULL. *)
Definition rules_dirs_list (authority : PolkitBackendKeyfileAuthority) : list string :=
  default [] (rules_dirs (priv authority)).

(** The first loop as a whole. *)
Definition load_scripts_dirs (authority : PolkitBackendKeyfileAuthority)
    : list string * PolkitBackendKeyfileAuthority :=
  fold_left (load_scripts_dir fs) (rules_dirs_list authority) ([], authority).

(** The second loop from a state on. *)
Fixpoint load_scripts_files_loop (files : list string) (st : LoadState)
    : outcome LoadState :=
  match files with
  | [] => Returns st
  | filename :: files' =>
      match load_scripts_file st filename with
      | Returns st' => load_scripts_files_loop files' st'
      | AssertionFailed => AssertionFailed
      | NullDereference => NullDereference
      end
  end.

(** The second loop as a whole, from [last = NULL] and [num_scripts = 0]. *)
Definition load_scripts_files (files : list string)
    (authority : PolkitBackendKeyfileAuthority) : outcome LoadState :=
  load_scripts_files_loop files
    {| ls_authority := authority; ls_last := false; ls_num_scripts := 0 |}.

Definition load_scripts (authority : PolkitBackendKeyfileAuthority)
    : outcome PolkitBackendKeyfileAuthority :=
  let '(files, authority) := load_scripts_dirs authority in
  match g_list_sort files (rules_file_name_cmp libc) with
  | None => AssertionFailed
  | Some files =>
      st ← load_scripts_files files authority;
      Returns (polkit_backend_authority_log (ls_authority st)
                 (LogFinishedLoading (ls_num_scripts st)))
  end.

Definition reload_scripts (authority : PolkitBackendKeyfileAuthority)
    : outcome PolkitBackendKeyfileAuthority :=
  (* Remove old rules *)
  let authority := set_policy authority [] in
  authority ← load_scripts authority;
  (* Let applications know we have new rules... *)
  Returns (g_signal_emit_by_name authority "changed").

Definition on_dir_monitor_changed (authority : PolkitBackendKeyfileAuthority)
    (file : option GFile) (event_type : GFileMonitorEvent)
    : outcome PolkitBackendKeyfileAuthority :=
  match file with
  | Some file =>
      let name := g_file_get_basename file in
      if negb (g_str_has_prefix name ".") && negb (g_str_has_prefix name "#")
         && g_str_has_suffix name ".keyrules"
         && match event_type with
            | G_FILE_MONITOR_EVENT_CREATED
            | G_FILE_MONITOR_EVENT_DELETED
            | G_FILE_MONITOR_EVENT_CHANGES_DONE_HINT => true
            | _ => false
            end
      then
        reload_scripts (polkit_backend_authority_log authority LogReloadingRules)
      else Returns authority
  | None => Returns authority
  end.

(** *** The states a reload goes through

    [scan_left f l a] lists the states [fold_left f l a] passes, the
    initial one left out. *)
Fixpoint scan_left {A B : Type} (f : A -> B -> A) (l : list B) (a : A) : list A :=
  match l with
  | [] => []
  | x :: l' => f a x :: scan_left f l' (f a x)
  end.

(** The states the second loop passes, one after every file it gets through:
    the list ends before the file on which the process ends. *)
Fixpoint load_scripts_files_trace (files : list string) (st : LoadState)
    : list LoadState :=
  match files with
  | [] => []
  | filename :: files' =>
      match load_scripts_file st filename with
      | Returns st' => st' :: load_scripts_files_trace files' st'
      | AssertionFailed => []
      | NullDereference => []
      end
  end.

(** The authority before [reload_scripts], then after each of its steps:
    the old chain dropped, every directory of the first loop, every file of
    the second loop, the closing log line, the signal.  The list ends where
    the process does: after the first loop when an assertion of the sort
    fails, before the first file that does not parse. *)
Definition reload_scripts_trace (authority : PolkitBackendKeyfileAuthority)
    : list PolkitBackendKeyfileAuthority :=
  let cleared := set_policy authority [] in
  let dirs := scan_left (load_scripts_dir fs) (rules_dirs_list cleared) ([], cleared) in
  let '(files, listed) := load_scripts_dirs cleared in
  authority :: cleared :: map snd dirs ++
    match g_list_sort files (rules_file_name_cmp libc) with
    | None => []
    | Some files =>
        let st0 := {| ls_authority := listed; ls_last := false; ls_num_scripts := 0 |} in
        map ls_authority (load_scripts_files_trace files st0)
          ++ match load_scripts_files files listed with
             | Returns st =>
                 let finished :=
                   polkit_backend_authority_log (ls_authority st)
                     (LogFinishedLoading (ls_num_scripts st)) in
                 [finished; g_signal_emit_by_name finished "changed"]
             | AssertionFailed => []
             | NullDereference => []
             end
    end.

End Loader.

(** *** Entry points of the interactive authority *)

Definition polkit_backend_keyfile_authority_get_admin_auth_identities
    (_authority : PolkitBackendKeyfileAuthority) (caller subject : PolkitSubject)
    (user_for_subject : PolkitIdentity) (subject_is_local subject_is_active : bool)
    (action_id : string) (details : PolkitDetails) : list PolkitIdentity :=
  let ret : list PolkitIdentity := [] in
  let ret :=
    match ret with
    | [] => polkit_unix_user_new 0 :: ret
    | _ => ret
    end in
  ret.

Definition polkit_backend_keyfile_authority_check_authorization_sync
    (_authority : PolkitBackendKeyfileAuthority) (caller subject : PolkitSubject)
    (user_for_subject : PolkitIdentity) (subject_is_local subject_is_active : bool)
    (action_id : string) (details : PolkitDetails)
    (implicit : PolkitImplicitAuthorization) : PolkitImplicitAuthorization :=
  POLKIT_IMPLICIT_AUTHORIZATION_NOT_AUTHORIZED.

End KeyfileAuthority.

Export KeyfileAuthority.

(** ** The evaluation contract of the specification

    Sections 4.4 and 4.5 of the specification describe an evaluator and an
    admin resolver over the compiled chain.  They are written down here in
    the specification's words, to be compared with the two entry points of
    the authority. *)

Module Contract.

(** Subject context (section 3): supplied by the caller, read-only. *)
Record SubjectContext : Set := mkSubjectContext {
  user_name : string;
  groups : list string;
  netgroups : list string;
  is_local : bool;
  is_active : bool;
  action : string
}.

(** Name service: user and group names resolved to numeric ids. *)
Record NameService : Type := mkNameService {
  getpwnam : string -> option Z;
  getgrnam : string -> option Z
}.

Definition member (s : string) (l : list string) : bool := existsb (String.eqb s) l.

Definition contains (haystack needle : string) : bool :=
  match String.index 0 needle haystack with
  | Some _ => true
  | None => false
  end.

(** The reserved group token is substituted before membership testing. *)
Definition substitute_wheel (group : string) : string :=
  if String.eqb group POLICY_MATCH_WHEEL then POLICY_WHEEL_USER else group.

Section Evaluation.

Variable h : Header.

(** A dimension is present when its flag is set in the constraint mask. *)
Definition present (rule : Policy) (flag : Z) : bool :=
  negb (Z.land (constraints rule) flag =? 0).

(** The action dimensions: either one present, they are OR'd with each other;
    neither present, every action matches. *)
Definition action_satisfied (rule : Policy) (ctx : SubjectContext) : bool :=
  let by_id :=
    present rule (PF_CONSTRAINT_ACTIONS h)
    && (member POLICY_MATCH_ALL (default [] (actions rule))
        || member (action ctx) (default [] (actions rule))) in
  let by_substring :=
    present rule (PF_CONSTRAINT_ACTION_CONTAINS h)
    && existsb (contains (action ctx)) (default [] (action_contains rule)) in
  if present rule (PF_CONSTRAINT_ACTIONS h)
     || present rule (PF_CONSTRAINT_ACTION_CONTAINS h)
  then by_id || by_substring
  else true.

(** [satisfied]: the conjunction over every dimension present in the mask. *)
Definition satisfied (rule : Policy) (ctx : SubjectContext) : bool :=
  action_satisfied rule ctx
  && (if present rule (PF_CONSTRAINT_UNIX_GROUPS h)
      then existsb (fun g => member (substitute_wheel g) (groups ctx))
             (default [] (unix_groups rule))
      else true)
  && (if present rule (PF_CONSTRAINT_NET_GROUPS h)
      then existsb (fun g => member g (netgroups ctx)) (default [] (net_groups rule))
      else true)
  && (if present rule (PF_CONSTRAINT_UNIX_NAMES h)
      then member (user_name ctx) (default [] (unix_names rule))
      else true)
  && (if present rule (PF_CONSTRAINT_SUBJECT_ACTIVE h)
      then Bool.eqb (is_active ctx) (require_active rule)
      else true)
  && (if present rule (PF_CONSTRAINT_SUBJECT_LOCAL h)
      then Bool.eqb (is_local ctx) (require_local rule)
      else true).

(** The verdict a result keyword stands for. *)
Definition verdict (r : Z) : PolkitImplicitAuthorization :=
  if r =? PK_RESPONSE_NO h then POLKIT_IMPLICIT_AUTHORIZATION_NOT_AUTHORIZED
  else if r =? PK_RESPONSE_YES h then POLKIT_IMPLICIT_AUTHORIZATION_AUTHORIZED
  else if r =? PK_RESPONSE_AUTH_SELF h
  then POLKIT_IMPLICIT_AUTHORIZATION_AUTHENTICATION_REQUIRED
  else if r =? PK_RESPONSE_AUTH_SELF_KEEP h
  then POLKIT_IMPLICIT_AUTHORIZATION_AUTHENTICATION_REQUIRED_RETAINED
  else if r =? PK_RESPONSE_AUTH_ADMIN h
  then POLKIT_IMPLICIT_AUTHORIZATION_ADMINISTRATOR_AUTHENTICATION_REQUIRED
  else if r =? PK_RESPONSE_AUTH_ADMIN_KEEP h
  then POLKIT_IMPLICIT_AUTHORIZATION_ADMINISTRATOR_AUTHENTICATION_REQUIRED_RETAINED
  else POLKIT_IMPLICIT_AUTHORIZATION_UNKNOWN.

(** One rule: its [result] when satisfied, its [result_inverse] when not,
    no decision otherwise. *)
Definition decide_rule (rule : Policy) (ctx : SubjectContext) : option Z :=
  if satisfied rule ctx then
    if present rule (PF_CONSTRAINT_RESULT h) then Some (response rule) else None
  else
    if present rule (PF_CONSTRAINT_RESULT_INVERSE h)
    then Some (response_inverse rule) else None.

(** Chain walk: RuleSets in chain order, the [normal] list of each in
    declaration order, the first decision wins. *)
Fixpoint walk_rules (l : list Policy) (ctx : SubjectContext) : option Z :=
  match l with
  | [] => None
  | rule :: l' =>
      match decide_rule rule ctx with
      | Some r => Some r
      | None => walk_rules l' ctx
      end
  end.

Fixpoint walk_chain (chain : list PolicyFile) (ctx : SubjectContext) : option Z :=
  match chain with
  | [] => None
  | file :: chain' =>
      match walk_rules (normal (rules file)) ctx with
      | Some r => Some r
      | None => walk_chain chain' ctx
      end
  end.

(** Section 4.4: the first decision of the walk, or the caller-supplied
    implicit default when the walk is exhausted. *)
Definition evaluate (chain : list PolicyFile) (ctx : SubjectContext)
    (implicit : PolkitImplicitAuthorization) : PolkitImplicitAuthorization :=
  match walk_chain chain ctx with
  | Some r => verdict r
  | None => implicit
  end.

Variable ns : NameService.

(** The identities an admin rule contributes: those of its user names and
    of its groups that the subject matched, resolved to identity objects. *)
Definition rule_identities (rule : Policy) (ctx : SubjectContext)
    : list PolkitIdentity :=
  omap (fun n => PolkitUnixUser <$> getpwnam ns n)
    (List.filter (String.eqb (user_name ctx)) (default [] (unix_names rule)))
  ++ omap (fun g => PolkitUnixGroup <$> getgrnam ns (substitute_wheel g))
       (List.filter (fun g => member (substitute_wheel g) (groups ctx))
          (default [] (unix_groups rule))).

(** Section 4.5: every satisfied rule of every [admin] list contributes, in
    chain then declaration order. *)
Definition resolve_admins (chain : list PolicyFile) (ctx : SubjectContext)
    : list PolkitIdentity :=
  flat_map
    (fun file =>
       flat_map (fun rule => if satisfied rule ctx then rule_identities rule ctx else [])
         (admin (rules file)))
    chain.

End Evaluation.

End Contract.

(** ** Closed inputs for the examples *)

Module Samples.

(** The answer of a [strcmp] that subtracts the first two bytes that differ,
    the end of a string counting as the byte 0. *)
Fixpoint first_difference (a b : string) : Z :=
  match a, b with
  | EmptyString, EmptyString => 0
  | EmptyString, String y _ => - Z.of_N (N_of_ascii y)
  | String x _, EmptyString => Z.of_N (N_of_ascii x)
  | String x a', String y b' =>
      if Ascii.eqb x y then first_difference a' b'
      else Z.of_N (N_of_ascii x) - Z.of_N (N_of_ascii y)
  end.

(** One C library: [strcmp ("/etc", "/usr")] is -16 there. *)
Definition sample_libc : Libc :=
  {| strcmp_magnitude := fun a b => Z.to_pos (Z.abs (first_difference a b)) |}.

(** One assignment of values to the enumerators of the missing header. *)
Definition sample_header : Header :=
  {| PK_RESPONSE_UNHANDLED := 0; PK_RESPONSE_NO := 1; PK_RESPONSE_YES := 2;
     PK_RESPONSE_AUTH_SELF := 3; PK_RESPONSE_AUTH_SELF_KEEP := 4;
     PK_RESPONSE_AUTH_ADMIN := 5; PK_RESPONSE_AUTH_ADMIN_KEEP := 6;
     PF_CONSTRAINT_ACTIONS := 1; PF_CONSTRAINT_ACTION_CONTAINS := 2;
     PF_CONSTRAINT_UNIX_GROUPS := 4; PF_CONSTRAINT_NET_GROUPS := 8;
     PF_CONSTRAINT_RESULT := 16; PF_CONSTRAINT_RESULT_INVERSE := 32;
     PF_CONSTRAINT_UNIX_NAMES := 64; PF_CONSTRAINT_SUBJECT_ACTIVE := 128;
     PF_CONSTRAINT_SUBJECT_LOCAL := 256 |}.

(** Splitting a list value at [;], a trailing separator being optional. *)
Fixpoint split_list (cur : string) (s : string) : list string :=
  match s with
  | EmptyString => if String.eqb cur "" then [] else [String.rev cur]
  | String c s' =>
      if Ascii.eqb c ";" then String.rev cur :: split_list "" s'
      else split_list (String c cur) s'
  end.

(** What GLib's getters answer for a value written without escapes. *)
Definition key_value (text : string) : KeyValue :=
  {| as_string := Some text;
     as_string_list := Some (split_list "" text);
     as_boolean :=
       if String.eqb text "true" then Some true
       else if String.eqb text "false" then Some false
       else None |}.

Definition key_file (groups : list (string * list (string * string))) : GKeyFile :=
  list_to_map
    (map (fun g => (fst g, list_to_map (map (fun kv => (fst kv, key_value (snd kv))) (snd g))))
       groups).

Definition etc_dir : string := "/etc/polkit-1/rules.d".
Definition usr_dir : string := "/usr/share/polkit-1/rules.d".

(** [/etc/polkit-1/rules.d/same.keyrules] *)
Definition etc_same : GKeyFile :=
  key_file
    [("Policy", [("Rules", "Deny"); ("AdminRules", "Admins")]);
     ("Deny", [("Actions", "org.example.action1"); ("Result", "no")]);
     ("Admins", [("InUnixGroups", "%wheel%")])].

(** [/usr/share/polkit-1/rules.d/same.keyrules] *)
Definition usr_same : GKeyFile :=
  key_file
    [("Policy", [("Rules", "Allow"); ("AdminRules", "Operators")]);
     ("Allow", [("Actions", "org.example.action1"); ("Result", "yes")]);
     ("Operators", [("InUnixGroups", "adm")])].

(** [/etc/polkit-1/rules.d/broken.keyrules]: [Rules] names a section that
    the file does not have. *)
Definition etc_broken : GKeyFile :=
  key_file
    [("Policy", [("Rules", "Gone"); ("AdminRules", "")]);
     ("Other", [("Result", "yes")])].

(** A rule whose [ResultInverse] is no result keyword. *)
Definition bad_inverse : GKeyFile :=
  key_file
    [("Policy", [("Rules", "R1"); ("AdminRules", "")]);
     ("R1", [("Result", "yes"); ("ResultInverse", "bogus")])].

(** The same rule with the two keys exchanged. *)
Definition bad_result : GKeyFile :=
  key_file
    [("Policy", [("Rules", "R1"); ("AdminRules", "")]);
     ("R1", [("Result", "bogus"); ("ResultInverse", "yes")])].

(** A file that declares its normal rules and leaves [AdminRules] out. *)
Definition only_rules : GKeyFile :=
  key_file
    [("Policy", [("Rules", "Allow")]);
     ("Allow", [("Result", "yes")])].

(** The only policy of [bad_inverse], as the parser compiles it. *)
Definition accepted_policy (h : Header) : Policy :=
  {| id := "R1";
     constraints :=
       Z.lor (Z.lor 0 (PF_CONSTRAINT_RESULT h)) (PF_CONSTRAINT_RESULT_INVERSE h);
     actions := None; n_actions := 0;
     action_contains := None; n_action_contains := 0;
     unix_groups := None; n_unix_groups := 0;
     net_groups := None; n_net_groups := 0;
     unix_names := None; n_unix_names := 0;
     response := PK_RESPONSE_YES h;
     response_inverse := PK_RESPONSE_UNHANDLED h;
     require_active := false; require_local := false |}.

Definition sample_fs : FileSystem :=
  {| g_dir_open := fun dir =>
       if String.eqb dir etc_dir then Some ["same.keyrules"; "README"; "broken.keyrules"]
       else if String.eqb dir usr_dir then Some ["same.keyrules"]
       else None;
     g_key_file_load_from_file := fun path =>
       if String.eqb path (etc_dir +:+ "/same.keyrules") then Some etc_same
       else if String.eqb path (usr_dir +:+ "/same.keyrules") then Some usr_same
       else if String.eqb path (etc_dir +:+ "/broken.keyrules") then Some etc_broken
       else if String.eqb path "/tmp/bad_inverse.keyrules" then Some bad_inverse
       else if String.eqb path "/tmp/bad_result.keyrules" then Some bad_result
       else None |}.

(** The two directories without the file that does not parse. *)
Definition clean_fs : FileSystem :=
  {| g_dir_open := fun dir =>
       if String.eqb dir etc_dir then Some ["same.keyrules"; "README"]
       else if String.eqb dir usr_dir then Some ["same.keyrules"]
       else None;
     g_key_file_load_from_file := fun path =>
       if String.eqb path (etc_dir +:+ "/same.keyrules") then Some etc_same
       else if String.eqb path (usr_dir +:+ "/same.keyrules") then Some usr_same
       else None |}.

(** An authority configured with [/usr] before [/etc], holding a chain from
    an earlier load. *)
Definition old_file : PolicyFile :=
  {| rules := {| normal := [policy_new0 "Old"]; admin := [] |} |}.

Definition usr_first : PolkitBackendKeyfileAuthority :=
  {| priv := {| rules_dirs := Some [usr_dir; etc_dir]; policy := [old_file] |};
     logged := []; emitted := [] |}.

(** The default configuration: [/etc] before [/usr]. *)
Definition etc_first : PolkitBackendKeyfileAuthority :=
  {| priv := {| rules_dirs := Some [etc_dir; usr_dir]; policy := [old_file] |};
     logged := []; emitted := [] |}.

Definition sample_ns : Contract.NameService :=
  {| Contract.getpwnam := fun n =>
       if String.eqb n "root" then Some 0
       else if String.eqb n "alice" then Some 1000
       else if String.eqb n "bob" then Some 1001
       else None;
     Contract.getgrnam := fun g =>
       if String.eqb g "wheel" then Some 10
       else if String.eqb g "adm" then Some 4
       else None |}.

Definition alice : Contract.SubjectContext :=
  {| Contract.user_name := "alice"; Contract.groups := ["users"; "wheel"; "adm"];
     Contract.netgroups := []; Contract.is_local := true;
     Contract.is_active := true; Contract.action := "org.example.action1" |}.

End Samples.

Import Samples.

(** ** Vocabulary of the statements *)

(** *** Strings *)

Definition starts_with (s pre : string) : Prop := exists rest, s = pre +:+ rest.
Definition ends_with (s suffix : string) : Prop := exists front, s = front +:+ suffix.

(** *** The rule parser *)

(** The six result keywords. *)
Definition result_keywords : list string :=
  ["no"; "yes"; "auth_self"; "auth_self_keep"; "auth_admin"; "auth_admin_keep"].

(** What a call hands back when it returns with an object: nothing when it
    returns NULL and when the process ends in it. *)
Definition returned {A : Type} (o : outcome (option A)) : option A :=
  match o with
  | Returns (Some a) => Some a
  | _ => None
  end.

(** A pass over the sections of a list does not succeed: it answers FALSE,
    or the process ends in it. *)
Definition pass_fails (o : outcome (bool * list Policy)) : Prop :=
  (exists l, o = Returns (false, l)) \/ o = NullDereference.

(** *** The chain loader *)

(** A rule file parses: [policy_file_new_from_path] returns a rule set. *)
Definition parses (h : Header) (fs : FileSystem) (path : string) : Prop :=
  is_Some (returned (policy_file_new_from_path h fs path)).

(** The rule sets of the files of a list that parse. *)
Definition parsed (h : Header) (fs : FileSystem) (files : list string)
    : list PolicyFile :=
  omap (fun path => returned (policy_file_new_from_path h fs path)) files.

(** The chain a state of the second loop holds. *)
Definition chain_of (s : LoadState) : list PolicyFile :=
  policy (priv (ls_authority s)).

(** *** The directory watcher *)


(** *** The order of the rule files *)

(** The name of a file inside its directory: what follows the last [/]. *)
Definition basename (path : string) : string :=
  match strrchr path "/" with
  | Some r => str_plus_1 r
  | None => path
  end.

(** [path_before a b]: the base file name of [a] is smaller than that of
    [b], or the two are equal and the full path [a] is smaller than [b];
    strings compare byte by byte. *)
Definition path_before (a b : string) : Prop :=
  String.compare (basename a) (basename b) = Lt
  \/ (basename a = basename b /\ String.compare a b = Lt).

Definition has_slash (path : string) : Prop := strrchr path "/" <> None.

(** ** Further vocabulary: what a rule section compiles to *)



(** The nine keys [policy_load] asks for. *)
Definition recognised_keys : list string :=
  ["Actions"; "ActionContains"; "InUnixGroups"; "InNetGroups"; "Result";
   "ResultInverse"; "InUserNames"; "SubjectActive"; "SubjectLocal"].

(** What the getters answer for a key, with a filler where they set the
    error. *)
Definition string_list_of (file : GKeyFile) (section_id key : string) : list string :=
  match g_key_file_get_string_list file section_id key with
  | GValue l => l
  | GErrorSet _ => []
  end.

Definition boolean_of (file : GKeyFile) (section_id key : string) : bool :=
  match g_key_file_get_boolean file section_id key with
  | GValue b => b
  | GErrorSet _ => false
  end.

Definition result_of (h : Header) (file : GKeyFile) (section_id key : string) : Z :=
  match g_key_file_get_string file section_id key with
  | GValue result => policy_string_to_result h (g_strstrip result)
  | GErrorSet _ => 0
  end.

(** A getter answers with a value. *)
Definition decodes {A : Type} (r : gresult A) : bool :=
  match r with
  | GValue _ => true
  | GErrorSet _ => false
  end.

(** One block of [policy_load] on a policy: taken when the key is there. *)
Definition block (taken : bool) (f : Policy -> Policy) (p : Policy) : Policy :=
  if taken then f p else p.

(** The policy a section compiles to when it loads: the nine blocks in the
    order of the source. *)
Definition policy_of (h : Header) (file : GKeyFile) (section_id : string) : Policy :=
  let key := g_key_file_has_key file section_id in
  let lists := string_list_of file section_id in
  let p := policy_new0 section_id in
  let p := block (key "Actions")
             (fun p => or_constraint (set_actions p (lists "Actions"))
                         (PF_CONSTRAINT_ACTIONS h)) p in
  let p := block (key "ActionContains")
             (fun p => or_constraint (set_action_contains p (lists "ActionContains"))
                         (PF_CONSTRAINT_ACTION_CONTAINS h)) p in
  let p := block (key "InUnixGroups")
             (fun p => or_constraint (set_unix_groups p (lists "InUnixGroups"))
                         (PF_CONSTRAINT_UNIX_GROUPS h)) p in
  let p := block (key "InNetGroups")
             (fun p => or_constraint (set_net_groups p (lists "InNetGroups"))
                         (PF_CONSTRAINT_NET_GROUPS h)) p in
  let p := block (key "Result")
             (fun p => or_constraint
                         (set_response p (result_of h file section_id "Result"))
                         (PF_CONSTRAINT_RESULT h)) p in
  let p := block (key "ResultInverse")
             (fun p => or_constraint
                         (set_response_inverse p
                            (result_of h file section_id "ResultInverse"))
                         (PF_CONSTRAINT_RESULT_INVERSE h)) p in
  let p := block (key "InUserNames")
             (fun p => or_constraint (set_unix_names p (lists "InUserNames"))
                         (PF_CONSTRAINT_UNIX_NAMES h)) p in
  let p := block (key "SubjectActive")
             (fun p => or_constraint
                         (set_require_active p (boolean_of file section_id "SubjectActive"))
                         (PF_CONSTRAINT_SUBJECT_ACTIVE h)) p in
  let p := block (key "SubjectLocal")
             (fun p => or_constraint
                         (set_require_local p (boolean_of file section_id "SubjectLocal"))
                         (PF_CONSTRAINT_SUBJECT_LOCAL h)) p in
  p.

(** The response a policy holds when the [ResultInverse] block is reached. *)
Definition response_at_inverse (h : Header) (file : GKeyFile) (section_id : string) : Z :=
  if g_key_file_has_key file section_id "Result"
  then result_of h file section_id "Result"
  else 0.

(** The section loads: it is there, every key it has of the nine decodes,
    [Result] holds a keyword, and the test of the [ResultInverse] block
    passes. *)
Definition section_loads (h : Header) (file : GKeyFile) (section_id : string) : bool :=
  let key := g_key_file_has_key file section_id in
  let list_ok k :=
    negb (key k) || decodes (g_key_file_get_string_list file section_id k) in
  let boolean_ok k :=
    negb (key k) || decodes (g_key_file_get_boolean file section_id k) in
  g_key_file_has_group file section_id
  && list_ok "Actions" && list_ok "ActionContains"
  && list_ok "InUnixGroups" && list_ok "InNetGroups"
  && (negb (key "Result")
      || decodes (g_key_file_get_string file section_id "Result")
         && negb (result_of h file section_id "Result" =? PK_RESPONSE_UNHANDLED h))
  && (negb (key "ResultInverse")
      || decodes (g_key_file_get_string file section_id "ResultInverse")
         && negb (response_at_inverse h file section_id =? PK_RESPONSE_UNHANDLED h))
  && list_ok "InUserNames"
  && boolean_ok "SubjectActive" && boolean_ok "SubjectLocal".

(** The process ends in [policy_load]: the section is there, the four lists
    before [Result] decode, and the first jump to [handle_err] is that of a
    keyword test, either the one of the [Result] block, or, that block
    passed, the one of the [ResultInverse] block. *)
Definition section_crashes (h : Header) (file : GKeyFile) (section_id : string) : bool :=
  let key := g_key_file_has_key file section_id in
  let list_ok k :=
    negb (key k) || decodes (g_key_file_get_string_list file section_id k) in
  g_key_file_has_group file section_id
  && list_ok "Actions" && list_ok "ActionContains"
  && list_ok "InUnixGroups" && list_ok "InNetGroups"
  && (key "Result"
      && decodes (g_key_file_get_string file section_id "Result")
      && (result_of h file section_id "Result" =? PK_RESPONSE_UNHANDLED h)
      || (negb (key "Result")
          || decodes (g_key_file_get_string file section_id "Result")
             && negb (result_of h file section_id "Result" =? PK_RESPONSE_UNHANDLED h))
         && key "ResultInverse"
         && decodes (g_key_file_get_string file section_id "ResultInverse")
         && (response_at_inverse h file section_id =? PK_RESPONSE_UNHANDLED h)).

(** The error a getter sets, with a filler where it answers with a value. *)
Definition error_of {A : Type} (r : gresult A) : GKeyFileError :=
  match r with
  | GValue _ => G_KEY_FILE_ERROR_INVALID_VALUE
  | GErrorSet e => e
  end.

(** The flags of the constraint mask, in the order of the blocks. *)
Definition constraint_flags (h : Header) : list Z :=
  [PF_CONSTRAINT_ACTIONS h; PF_CONSTRAINT_ACTION_CONTAINS h;
   PF_CONSTRAINT_UNIX_GROUPS h; PF_CONSTRAINT_NET_GROUPS h;
   PF_CONSTRAINT_RESULT h; PF_CONSTRAINT_RESULT_INVERSE h;
   PF_CONSTRAINT_UNIX_NAMES h; PF_CONSTRAINT_SUBJECT_ACTIVE h;
   PF_CONSTRAINT_SUBJECT_LOCAL h].

(** No flag is zero and no two flags share a bit. *)
Fixpoint independent_flags (flags : list Z) : bool :=
  match flags with
  | [] => true
  | f :: flags' =>
      negb (f =? 0)
      && forallb (fun g => Z.land f g =? 0) flags'
      && independent_flags flags'
  end.

(** The seven values of [PolkitResponse]. *)
Definition response_codes (h : Header) : list Z :=
  [PK_RESPONSE_UNHANDLED h; PK_RESPONSE_NO h; PK_RESPONSE_YES h;
   PK_RESPONSE_AUTH_SELF h; PK_RESPONSE_AUTH_SELF_KEEP h;
   PK_RESPONSE_AUTH_ADMIN h; PK_RESPONSE_AUTH_ADMIN_KEEP h].

(** The keyword of each response other than [PK_RESPONSE_UNHANDLED]. *)
Definition keyword_table (h : Header) : list (string * Z) :=
  [("no", PK_RESPONSE_NO h); ("yes", PK_RESPONSE_YES h);
   ("auth_self", PK_RESPONSE_AUTH_SELF h);
   ("auth_self_keep", PK_RESPONSE_AUTH_SELF_KEEP h);
   ("auth_admin", PK_RESPONSE_AUTH_ADMIN h);
   ("auth_admin_keep", PK_RESPONSE_AUTH_ADMIN_KEEP h)].

(** The counts of a policy are the lengths of its lists. *)
Definition counts_match (p : Policy) : Prop :=
  n_actions p = length (default [] (actions p))
  /\ n_action_contains p = length (default [] (action_contains p))
  /\ n_unix_groups p = length (default [] (unix_groups p))
  /\ n_net_groups p = length (default [] (net_groups p))
  /\ n_unix_names p = length (default [] (unix_names p)).

(** A rule section with every list key, a boolean and both results, written
    with blanks and capitals. *)
Definition full_rule : GKeyFile :=
  key_file
    [("Policy", [("Rules", " Full ;Plain"); ("AdminRules", "")]);
     ("Full", [("Actions", "org.example.a;org.example.b"); ("ActionContains", "example");
               ("InUnixGroups", "%wheel%"); ("InNetGroups", ""); ("InUserNames", "alice;bob");
               ("Result", "  Auth_Admin_KEEP "); ("ResultInverse", "no");
               ("SubjectActive", "true"); ("SubjectLocal", "false");
               ("Comment", "not a key of the format")]);
     ("Plain", [])].

(** The same file without the key the parser does not know, and without
    the sections no list names. *)
Definition full_rule_trimmed : GKeyFile :=
  key_file
    [("Full", [("Actions", "org.example.a;org.example.b"); ("ActionContains", "example");
               ("InUnixGroups", "%wheel%"); ("InNetGroups", ""); ("InUserNames", "alice;bob");
               ("Result", "  Auth_Admin_KEEP "); ("ResultInverse", "no");
               ("SubjectActive", "true"); ("SubjectLocal", "false")])].


Definition full_rule_fs : FileSystem :=
  {| g_dir_open := fun _ => None;
     g_key_file_load_from_file := fun path =>
       if String.eqb path "/etc/polkit-1/rules.d/full.keyrules" then Some full_rule
       else None |}.

(** The mask that the blocks taken leave, from the mask [m]. *)
Definition mask_of (taken_flags : list (bool * Z)) (m : Z) : Z :=
  fold_left (fun (m : Z) (bf : bool * Z) => Z.lor m (if fst bf then snd bf else 0))
    taken_flags m.

(** The value a key file holds under a group and a key. *)
Definition lookup_key (file : GKeyFile) (section_id key : string) : option KeyValue :=
  file !! section_id ≫= (fun g => g !! key).

(** ** Further vocabulary: what the loader finds *)

(** The rule files of the directories [dirs], found after [files]: what the
    first loop of [load_scripts] collects, without the log. *)
Definition discovered (fs : FileSystem) (dirs : list string) (files : list string)
    : list string :=
  fold_left
    (fun files dir_name =>
       match g_dir_open fs dir_name with
       | Some names => prepend_rule_files dir_name names files
       | None => files
       end)
    dirs files.

(** The lines the first loop logs: one for every directory, and one more
    for a directory that does not open. *)
Definition directory_log (fs : FileSystem) (dirs : list string) : list LogEntry :=
  flat_map
    (fun dir_name =>
       LogLoadingRulesFromDirectory dir_name
       :: match g_dir_open fs dir_name with
          | Some _ => []
          | None => [LogErrorOpeningRulesDirectory dir_name]
          end)
    dirs.

(** An entry of a directory is a name, not a path. *)
Definition plain_name (name : string) : Prop := strrchr name "/" = None.

(** A directory with a hidden rule file. *)
Definition hidden_fs : FileSystem :=
  {| g_dir_open := fun dir =>
       if String.eqb dir etc_dir then Some [".swap.keyrules"; "10-rules.keyrules"]
       else None;
     g_key_file_load_from_file := fun _ => None |}.

(** The authority [load_scripts] leaves when it returns, the files found
    sorting to [sorted]: the directories as they were; as chain the rule sets
    of the files, or the chain as it was when there is no file; the log longer
    by the lines of the first loop and the closing line. *)
Definition loaded (h : Header) (fs : FileSystem)
    (authority : PolkitBackendKeyfileAuthority) (sorted : list string)
    : PolkitBackendKeyfileAuthority :=
  {| priv := {| rules_dirs := rules_dirs (priv authority);
                policy := match sorted with
                          | [] => policy (priv authority)
                          | _ => parsed h fs sorted
                          end |};
     logged := logged authority
               ++ directory_log fs (rules_dirs_list authority)
               ++ [LogFinishedLoading (length sorted)];
     emitted := emitted authority |}.

(** The authority a reload leaves when it returns: the rule sets of the
    files as chain, and one more signal. *)
Definition reloaded (h : Header) (fs : FileSystem)
    (authority : PolkitBackendKeyfileAuthority) (sorted : list string)
    : PolkitBackendKeyfileAuthority :=
  {| priv := {| rules_dirs := rules_dirs (priv authority);
                policy := parsed h fs sorted |};
     logged := logged authority
               ++ directory_log fs (rules_dirs_list authority)
               ++ [LogFinishedLoading (length sorted)];
     emitted := emitted authority ++ ["changed"] |}.

(** How a reload ends, from the files found alone: a path found twice fails
    the assertion of the comparison; a file that does not parse ends the
    process in the second loop; otherwise the reload returns. *)
Definition reload_outcome (libc : Libc) (h : Header) (fs : FileSystem)
    (authority : PolkitBackendKeyfileAuthority)
    : outcome PolkitBackendKeyfileAuthority :=
  match g_list_sort (discovered fs (rules_dirs_list authority) [])
          (rules_file_name_cmp libc) with
  | None => AssertionFailed
  | Some sorted =>
      if bool_decide (Forall (parses h fs) sorted)
      then Returns (reloaded h fs authority sorted)
      else NullDereference
  end.

(** ** Construction of the authority

    [set_property] and [constructed] of polkitbackendkeyfileauthority.c.
    The property ids are the two of the file's enum; the value of
    [rules-dirs] is a string vector or NULL, which [g_value_dup_boxed]
    copies as it is; a failed [g_assert] is [None]; the warning for an
    unknown property id changes nothing.  The two directories of the build
    come from config.h, which is not part of the sources: they are
    parameters.  The chaining to the parent class is left out. *)
Definition PROP_0 : Z := 0.

Definition PROP_RULES_DIRS : Z := 1.

Record Config : Type := mkConfig {
  PACKAGE_SYSCONF_DIR : string;
  PACKAGE_DATA_DIR : string
}.

Definition set_rules_dirs (authority : PolkitBackendKeyfileAuthority)
    (dirs : option (list string)) : PolkitBackendKeyfileAuthority :=
  {| priv := {| rules_dirs := dirs; policy := policy (priv authority) |};
     logged := logged authority;
     emitted := emitted authority |}.

Definition polkit_backend_keyfile_authority_set_property
    (authority : PolkitBackendKeyfileAuthority) (property_id : Z)
    (value : option (list string)) : option PolkitBackendKeyfileAuthority :=
  if property_id =? PROP_RULES_DIRS then
    match rules_dirs (priv authority) with
    | None => Some (set_rules_dirs authority value)
    | Some _ => None
    end
  else Some authority.

Definition polkit_backend_keyfile_authority_constructed (c : Config)
    (authority : PolkitBackendKeyfileAuthority) : PolkitBackendKeyfileAuthority :=
  match rules_dirs (priv authority) with
  | None =>
      set_rules_dirs authority
        (Some [PACKAGE_SYSCONF_DIR c +:+ "/polkit-1/rules.d";
               PACKAGE_DATA_DIR c +:+ "/polkit-1/rules.d"])
  | Some _ => authority
  end.

(** The directories of a build with the usual prefixes. *)
Definition sample_config : Config :=
  {| PACKAGE_SYSCONF_DIR := "/etc"; PACKAGE_DATA_DIR := "/usr/share" |}.

(** An authority before its properties are set. *)
Definition fresh_authority : PolkitBackendKeyfileAuthority :=
  {| priv := {| rules_dirs := None; policy := [] |};
     logged := []; emitted := [] |}.

(** ** Properties *)

(** *** Strings *)

Lemma append_cons (c : ascii) (a b : string) :
  String c a +:+ b = String c (a +:+ b).
Proof. reflexivity. Qed.

Lemma append_empty (b : string) : "" +:+ b = b.
Proof. reflexivity. Qed.

Lemma g_str_has_prefix_spec (s pre : string) :
  g_str_has_prefix s pre = true <-> starts_with s pre.
Proof.
  unfold g_str_has_prefix, starts_with. revert s.
  induction pre as [|a pre IH]; intros s; simpl.
  - split; [exists s; reflexivity | destruct s; reflexivity].
  - destruct s as [|b s]; simpl.
    + split; [discriminate | intros [r Hr]; rewrite append_cons in Hr; discriminate].
    + destruct (ascii_dec a b) as [->|Hne].
      * rewrite IH. split; intros [r Hr]; exists r;
          rewrite append_cons in *; congruence.
      * split; [discriminate | intros [r Hr]; rewrite append_cons in Hr; congruence].
Qed.

Lemma substring_append_r (front s : string) :
  String.substring (String.length front) (String.length s) (front +:+ s) = s.
Proof.
  induction front as [|c front IH]; [|rewrite append_cons; exact IH].
  rewrite append_empty.
  induction s as [|c s IH]; simpl; [reflexivity|].
  f_equal. exact IH.
Qed.

Lemma substring_split (n : nat) (s : string) :
  (n <= String.length s)%nat ->
  s = String.substring 0 n s +:+
      String.substring n (String.length s - n) s.
Proof.
  revert s. induction n as [|n IH]; intros s Hn.
  - replace (String.length s - 0)%nat with (String.length s) by lia.
    pose proof (substring_append_r "" s) as H.
    rewrite append_empty in H. simpl in H. rewrite H.
    destruct s; reflexivity.
  - destruct s as [|c s]; simpl in *; [lia|].
    rewrite append_cons. f_equal. apply IH. lia.
Qed.

Lemma length_append (a b : string) :
  String.length (a +:+ b) = (String.length a + String.length b)%nat.
Proof.
  induction a as [|c a IH]; [reflexivity|].
  rewrite append_cons. simpl. congruence.
Qed.

Lemma g_str_has_suffix_spec (s suffix : string) :
  g_str_has_suffix s suffix = true <-> ends_with s suffix.
Proof.
  unfold g_str_has_suffix, ends_with. split.
  - destruct (Nat.ltb_spec (String.length s) (String.length suffix)) as [|Hle];
      [discriminate|].
    intros H%String.eqb_eq.
    exists (String.substring 0 (String.length s - String.length suffix) s).
    pose proof (substring_split (String.length s - String.length suffix) s) as Hs.
    replace (String.length s - (String.length s - String.length suffix))%nat
      with (String.length suffix) in Hs by lia.
    rewrite H in Hs. apply Hs. lia.
  - intros [front ->]. rewrite length_append.
    destruct (Nat.ltb_spec (String.length front + String.length suffix)
                (String.length suffix)) as [|_]; [lia|].
    replace (String.length front + String.length suffix - String.length suffix)%nat
      with (String.length front) by lia.
    rewrite substring_append_r. apply String.eqb_refl.
Qed.

(** *** What a rule section compiles to *)

Section SectionFacts.

Variable h : Header.
Variable file : GKeyFile.
Variable section_id : string.

Lemma load_string_list_block (key : string)
    (set : Policy -> list string -> Policy) (flag : Z) (p : Policy) :
  load_string_list file section_id key set flag p
  = if negb (g_key_file_has_key file section_id key)
       || decodes (g_key_file_get_string_list file section_id key)
    then Next (block (g_key_file_has_key file section_id key)
                 (fun p => or_constraint (set p (string_list_of file section_id key)) flag) p)
    else HandleErr (Some (error_of (g_key_file_get_string_list file section_id key))).
Proof.
  unfold load_string_list, block, string_list_of.
  destruct (g_key_file_has_key file section_id key); simpl; [|reflexivity].
  destruct (g_key_file_get_string_list file section_id key); reflexivity.
Qed.

Lemma load_boolean_block (key : string)
    (set : Policy -> bool -> Policy) (flag : Z) (p : Policy) :
  load_boolean file section_id key set flag p
  = if negb (g_key_file_has_key file section_id key)
       || decodes (g_key_file_get_boolean file section_id key)
    then Next (block (g_key_file_has_key file section_id key)
                 (fun p => or_constraint (set p (boolean_of file section_id key)) flag) p)
    else HandleErr (Some (error_of (g_key_file_get_boolean file section_id key))).
Proof.
  unfold load_boolean, block, boolean_of.
  destruct (g_key_file_has_key file section_id key); simpl; [|reflexivity].
  destruct (g_key_file_get_boolean file section_id key); reflexivity.
Qed.

(** The [Result] block jumps with [err] set when the getter fails, and with
    [err] NULL when the text it reads is no keyword. *)
Lemma load_result_block (p : Policy) :
  load_result h file section_id p
  = if negb (g_key_file_has_key file section_id "Result")
       || decodes (g_key_file_get_string file section_id "Result")
          && negb (result_of h file section_id "Result" =? PK_RESPONSE_UNHANDLED h)
    then Next (block (g_key_file_has_key file section_id "Result")
                 (fun p => or_constraint
                             (set_response p (result_of h file section_id "Result"))
                             (PF_CONSTRAINT_RESULT h)) p)
    else HandleErr
           (if decodes (g_key_file_get_string file section_id "Result") then None
            else Some (error_of (g_key_file_get_string file section_id "Result"))).
Proof.
  unfold load_result, block, result_of.
  destruct (g_key_file_has_key file section_id "Result"); simpl; [|reflexivity].
  destruct (g_key_file_get_string file section_id "Result"); simpl; [|reflexivity].
  destruct (_ =? _); reflexivity.
Qed.

Lemma load_result_inverse_block (p : Policy) :
  load_result_inverse h file section_id p
  = if negb (g_key_file_has_key file section_id "ResultInverse")
       || decodes (g_key_file_get_string file section_id "ResultInverse")
          && negb (response p =? PK_RESPONSE_UNHANDLED h)
    then Next (block (g_key_file_has_key file section_id "ResultInverse")
                 (fun p => or_constraint
                             (set_response_inverse p
                                (result_of h file section_id "ResultInverse"))
                             (PF_CONSTRAINT_RESULT_INVERSE h)) p)
    else HandleErr
           (if decodes (g_key_file_get_string file section_id "ResultInverse") then None
            else Some (error_of (g_key_file_get_string file section_id "ResultInverse"))).
Proof.
  unfold load_result_inverse, block, result_of.
  destruct (g_key_file_has_key file section_id "ResultInverse"); simpl; [|reflexivity].
  destruct (g_key_file_get_string file section_id "ResultInverse"); simpl; [|reflexivity].
  destruct (_ =? _); reflexivity.
Qed.

(** A projection that a block's update leaves alone passes through it. *)
Lemma block_keeps {A : Type} (proj : Policy -> A) (taken : bool)
    (f : Policy -> Policy) (p : Policy) :
  (forall q, proj (f q) = proj q) -> proj (block taken f p) = proj p.
Proof. intros Hf. unfold block. destruct taken; [apply Hf | reflexivity]. Qed.

Lemma block_sets {A : Type} (proj : Policy -> A) (taken : bool)
    (f : Policy -> Policy) (p : Policy) (v : A) :
  (forall q, proj (f q) = v) ->
  proj (block taken f p) = if taken then v else proj p.
Proof. intros Hf. unfold block. destruct taken; [apply Hf | reflexivity]. Qed.

Lemma block_invariant (P : Policy -> Prop) (taken : bool)
    (f : Policy -> Policy) (p : Policy) :
  (forall q, P q -> P (f q)) -> P p -> P (block taken f p).
Proof. intros Hf Hp. unfold block. destruct taken; [apply Hf|]; exact Hp. Qed.

(** [policy_load] as one equation: the compiled policy when the section
    loads; otherwise the end of the process when the first jump to
    [handle_err] is that of a keyword test, and NULL when it is not. *)
Lemma policy_load_equation :
  policy_load h file section_id
  = if section_loads h file section_id
    then Returns (Some (policy_of h file section_id))
    else if section_crashes h file section_id then NullDereference
    else Returns None.
Proof.
  unfold policy_load, section_loads, section_crashes, policy_of.
  destruct (g_key_file_has_group file section_id); simpl; [|reflexivity].
  rewrite load_string_list_block.
  destruct (negb _ || decodes (g_key_file_get_string_list file section_id "Actions"));
    simpl; [|reflexivity].
  rewrite load_string_list_block.
  destruct (negb _ || decodes (g_key_file_get_string_list file section_id "ActionContains"));
    simpl; [|reflexivity].
  rewrite load_string_list_block.
  destruct (negb _ || decodes (g_key_file_get_string_list file section_id "InUnixGroups"));
    simpl; [|reflexivity].
  rewrite load_string_list_block.
  destruct (negb _ || decodes (g_key_file_get_string_list file section_id "InNetGroups"));
    simpl; [|reflexivity].
  rewrite load_result_block.
  destruct (negb (g_key_file_has_key file section_id "Result") || _) eqn:Hres;
    simpl.
  2: { revert Hres.
       destruct (g_key_file_has_key file section_id "Result"),
                (decodes (g_key_file_get_string file section_id "Result")),
                (result_of h file section_id "Result" =? PK_RESPONSE_UNHANDLED h);
         simpl; intros Hres; try discriminate; reflexivity. }
  assert (Hno : g_key_file_has_key file section_id "Result"
                && decodes (g_key_file_get_string file section_id "Result")
                && (result_of h file section_id "Result" =? PK_RESPONSE_UNHANDLED h)
                = false).
  { revert Hres.
    destruct (g_key_file_has_key file section_id "Result"),
             (decodes (g_key_file_get_string file section_id "Result")),
             (result_of h file section_id "Result" =? PK_RESPONSE_UNHANDLED h);
      simpl; intros Hres; try discriminate; reflexivity. }
  rewrite Hno. clear Hno Hres. simpl.
  rewrite load_result_inverse_block.
  assert (Hresp :
    response
      (block (g_key_file_has_key file section_id "Result")
         (fun p => or_constraint
                     (set_response p (result_of h file section_id "Result"))
                     (PF_CONSTRAINT_RESULT h))
         (block (g_key_file_has_key file section_id "InNetGroups")
            (fun p => or_constraint
                        (set_net_groups p (string_list_of file section_id "InNetGroups"))
                        (PF_CONSTRAINT_NET_GROUPS h))
            (block (g_key_file_has_key file section_id "InUnixGroups")
               (fun p => or_constraint
                           (set_unix_groups p
                              (string_list_of file section_id "InUnixGroups"))
                           (PF_CONSTRAINT_UNIX_GROUPS h))
               (block (g_key_file_has_key file section_id "ActionContains")
                  (fun p => or_constraint
                              (set_action_contains p
                                 (string_list_of file section_id "ActionContains"))
                              (PF_CONSTRAINT_ACTION_CONTAINS h))
                  (block (g_key_file_has_key file section_id "Actions")
                     (fun p => or_constraint
                                 (set_actions p
                                    (string_list_of file section_id "Actions"))
                                 (PF_CONSTRAINT_ACTIONS h))
                     (policy_new0 section_id))))))
    = response_at_inverse h file section_id).
  { unfold response_at_inverse.
    rewrite (block_sets response _ _ _ (result_of h file section_id "Result"))
      by reflexivity.
    rewrite !(block_keeps response) by reflexivity. reflexivity. }
  rewrite Hresp. clear Hresp.
  destruct (negb (g_key_file_has_key file section_id "ResultInverse") || _) eqn:Hinv;
    simpl.
  2: { revert Hinv.
       destruct (g_key_file_has_key file section_id "ResultInverse"),
                (decodes (g_key_file_get_string file section_id "ResultInverse")),
                (response_at_inverse h file section_id =? PK_RESPONSE_UNHANDLED h);
         simpl; intros Hinv; try discriminate; reflexivity. }
  assert (Hno : g_key_file_has_key file section_id "ResultInverse"
                && decodes (g_key_file_get_string file section_id "ResultInverse")
                && (response_at_inverse h file section_id =? PK_RESPONSE_UNHANDLED h)
                = false).
  { revert Hinv.
    destruct (g_key_file_has_key file section_id "ResultInverse"),
             (decodes (g_key_file_get_string file section_id "ResultInverse")),
             (response_at_inverse h file section_id =? PK_RESPONSE_UNHANDLED h);
      simpl; intros Hinv; try discriminate; reflexivity. }
  rewrite Hno. clear Hno Hinv.
  rewrite load_string_list_block.
  destruct (negb _ || decodes (g_key_file_get_string_list file section_id "InUserNames"));
    simpl; [|reflexivity].
  rewrite load_boolean_block.
  destruct (negb _ || decodes (g_key_file_get_boolean file section_id "SubjectActive"));
    simpl; [|reflexivity].
  rewrite load_boolean_block.
  destruct (negb _ || decodes (g_key_file_get_boolean file section_id "SubjectLocal"));
    simpl; reflexivity.
Qed.

End SectionFacts.
(** *** The rule parser *)

Section ParserFacts.

Variable h : Header.

Lemma policy_load_missing_group (file : GKeyFile) (section_id : string) :
  g_key_file_has_group file section_id = false ->
  policy_load h file section_id = Returns None.
Proof. intros H. unfold policy_load. rewrite H. reflexivity. Qed.

(** [policy_load] holds no assertion. *)
Lemma policy_load_never_aborts (file : GKeyFile) (section_id : string) :
  policy_load h file section_id <> AssertionFailed.
Proof.
  rewrite policy_load_equation.
  destruct (section_loads h file section_id); [discriminate|].
  destruct (section_crashes h file section_id); discriminate.
Qed.

(** The loop links the rules in the order of the list. *)
Lemma policy_file_load_rules_loop_links (keyfile : GKeyFile)
    (sections : list string) (ps : list Policy) :
  mapM (fun s => returned (policy_load h keyfile (g_strstrip s))) sections = Some ps ->
  forall last target,
    policy_file_load_rules_loop h keyfile sections last target
    = Returns (true, if last then target ++ ps
                     else match ps with [] => target | _ => ps end).
Proof.
  revert ps. induction sections as [|x sections IH]; intros ps Hm last target.
  - simpl in Hm. injection Hm as <-. simpl.
    destruct last; [rewrite app_nil_r|]; reflexivity.
  - simpl in Hm. simpl.
    destruct (policy_load h keyfile (g_strstrip x)) as [[p|]| |]; try discriminate.
    simpl in Hm.
    destruct (mapM _ sections) as [ps'|] eqn:Hps; [|discriminate].
    injection Hm as <-.
    destruct last; rewrite (IH ps' eq_refl); simpl.
    + rewrite <- app_assoc. reflexivity.
    + reflexivity.
Qed.

(** With a section that does not load the loop does not succeed. *)
Lemma policy_file_load_rules_loop_fails (keyfile : GKeyFile)
    (sections : list string) :
  mapM (fun s => returned (policy_load h keyfile (g_strstrip s))) sections = None ->
  forall last target,
    pass_fails (policy_file_load_rules_loop h keyfile sections last target).
Proof.
  induction sections as [|x sections IH]; intros Hm last target; [discriminate|].
  simpl in Hm. simpl.
  pose proof (policy_load_never_aborts keyfile (g_strstrip x)) as Hx.
  destruct (policy_load h keyfile (g_strstrip x)) as [[p|]| |].
  - simpl in Hm. destruct (mapM _ sections); [discriminate|].
    destruct last; apply IH; reflexivity.
  - left. eexists. reflexivity.
  - contradiction.
  - right. reflexivity.
Qed.

(** The process ends in the loop only where it ends in [policy_load]. *)
Lemma policy_file_load_rules_loop_crash (keyfile : GKeyFile)
    (sections : list string) (last : bool) (target : list Policy) :
  policy_file_load_rules_loop h keyfile sections last target = NullDereference ->
  exists section_id, policy_load h keyfile section_id = NullDereference.
Proof.
  revert last target. induction sections as [|x sections IH]; intros last target;
    [discriminate|].
  simpl. destruct (policy_load h keyfile (g_strstrip x)) as [[p|]| |] eqn:Hx;
    try discriminate.
  - destruct last; apply IH.
  - intros _. exists (g_strstrip x). exact Hx.
Qed.

Lemma policy_file_load_rules_loop_never_aborts (keyfile : GKeyFile)
    (sections : list string) (last : bool) (target : list Policy) :
  policy_file_load_rules_loop h keyfile sections last target <> AssertionFailed.
Proof.
  revert last target. induction sections as [|x sections IH]; intros last target;
    [discriminate|].
  simpl.
  pose proof (policy_load_never_aborts keyfile (g_strstrip x)) as Hx.
  destruct (policy_load h keyfile (g_strstrip x)) as [[p|]| |];
    try discriminate; [|contradiction].
  destruct last; apply IH.
Qed.

(** A pass over a key that is not there, or over a list with a section that
    does not load, does not succeed. *)
Lemma policy_file_load_rules_fails (keyfile : GKeyFile) (section : string)
    (target : list Policy) :
  match g_key_file_get_string_list keyfile POLICY_SECTION section with
  | GErrorSet _ => True
  | GValue sections =>
      mapM (fun s => returned (policy_load h keyfile (g_strstrip s))) sections = None
  end ->
  pass_fails (policy_file_load_rules h keyfile section target).
Proof.
  unfold policy_file_load_rules.
  destruct (g_key_file_get_string_list keyfile POLICY_SECTION section) as [sections|e].
  - intros Hm. apply policy_file_load_rules_loop_fails. exact Hm.
  - intros _. left. eexists. reflexivity.
Qed.

(** A file one of whose two passes does not succeed gives no rule set: NULL
    is returned, or the process has ended. *)
Lemma policy_file_new_from_path_fails (fs : FileSystem) (path : string)
    (keyf : GKeyFile) :
  g_key_file_load_from_file fs path = Some keyf ->
  pass_fails (policy_file_load_rules h keyf "Rules" [])
  \/ pass_fails (policy_file_load_rules h keyf "AdminRules" []) ->
  policy_file_new_from_path h fs path = Returns None
  \/ policy_file_new_from_path h fs path = NullDereference.
Proof.
  intros Hload Hfail. unfold policy_file_new_from_path. rewrite Hload. simpl.
  assert (Hr : policy_file_load_rules h keyf "Rules" [] <> AssertionFailed).
  { unfold policy_file_load_rules.
    destruct (g_key_file_get_string_list keyf POLICY_SECTION "Rules");
      [apply policy_file_load_rules_loop_never_aborts | discriminate]. }
  assert (Ha : policy_file_load_rules h keyf "AdminRules" [] <> AssertionFailed).
  { unfold policy_file_load_rules.
    destruct (g_key_file_get_string_list keyf POLICY_SECTION "AdminRules");
      [apply policy_file_load_rules_loop_never_aborts | discriminate]. }
  destruct (policy_file_load_rules h keyf "Rules" []) as [[ok1 l1]| |];
    simpl; [|contradiction|right; reflexivity].
  destruct ok1; simpl; [|left; reflexivity].
  destruct (policy_file_load_rules h keyf "AdminRules" []) as [[ok2 l2]| |];
    simpl; [|contradiction|right; reflexivity].
  destruct ok2; simpl; [|left; reflexivity].
  destruct Hfail as [[[l Hl]|Hl]|[[l Hl]|Hl]]; discriminate.
Qed.

(** The process ends in the parse of a file only where it ends in
    [policy_load]. *)
Lemma policy_file_new_from_path_crash (fs : FileSystem) (path : string)
    (keyf : GKeyFile) :
  g_key_file_load_from_file fs path = Some keyf ->
  policy_file_new_from_path h fs path = NullDereference ->
  exists section_id, policy_load h keyf section_id = NullDereference.
Proof.
  intros Hload. unfold policy_file_new_from_path. rewrite Hload. simpl.
  assert (Hpass : forall section,
             policy_file_load_rules h keyf section [] = NullDereference ->
             exists section_id, policy_load h keyf section_id = NullDereference).
  { intros section. unfold policy_file_load_rules.
    destruct (g_key_file_get_string_list keyf POLICY_SECTION section);
      [apply policy_file_load_rules_loop_crash | discriminate]. }
  destruct (policy_file_load_rules h keyf "Rules" []) as [[ok1 l1]| |] eqn:H1;
    simpl; [|discriminate|intros _; apply (Hpass "Rules"); exact H1].
  destruct ok1; simpl; [|discriminate].
  destruct (policy_file_load_rules h keyf "AdminRules" []) as [[ok2 l2]| |] eqn:H2;
    simpl; [|discriminate|intros _; apply (Hpass "AdminRules"); exact H2].
  destruct ok2; discriminate.
Qed.

Lemma policy_file_new_from_path_never_aborts (fs : FileSystem) (path : string) :
  policy_file_new_from_path h fs path <> AssertionFailed.
Proof.
  unfold policy_file_new_from_path.
  destruct (g_key_file_load_from_file fs path) as [keyf|]; [|discriminate]. simpl.
  assert (Hpass : forall section,
             policy_file_load_rules h keyf section [] <> AssertionFailed).
  { intros section. unfold policy_file_load_rules.
    destruct (g_key_file_get_string_list keyf POLICY_SECTION section);
      [apply policy_file_load_rules_loop_never_aborts | discriminate]. }
  pose proof (Hpass "Rules") as H1. pose proof (Hpass "AdminRules") as H2.
  destruct (policy_file_load_rules h keyf "Rules" []) as [[ok1 l1]| |];
    simpl; [|contradiction|discriminate].
  destruct ok1; simpl; [|discriminate].
  destruct (policy_file_load_rules h keyf "AdminRules" []) as [[ok2 l2]| |];
    simpl; [|contradiction|discriminate].
  destruct ok2; discriminate.
Qed.

(** What a successful parse returns: the rules of both lists, in the order
    the [Policy] section names them. *)
Lemma policy_file_new_from_path_links (fs : FileSystem) (path : string)
    (keyf : GKeyFile) (rs ads : list string) (ns as_ : list Policy) :
  g_key_file_load_from_file fs path = Some keyf ->
  g_key_file_get_string_list keyf POLICY_SECTION "Rules" = GValue rs ->
  g_key_file_get_string_list keyf POLICY_SECTION "AdminRules" = GValue ads ->
  mapM (fun s => returned (policy_load h keyf (g_strstrip s))) rs = Some ns ->
  mapM (fun s => returned (policy_load h keyf (g_strstrip s))) ads = Some as_ ->
  policy_file_new_from_path h fs path
  = Returns (Some {| rules := {| normal := ns; admin := as_ |} |}).
Proof.
  intros Hload Hr Ha Hns Has.
  unfold policy_file_new_from_path, policy_file_load_rules.
  rewrite Hload, Hr, Ha. simpl.
  rewrite (policy_file_load_rules_loop_links _ _ _ Hns). simpl.
  rewrite (policy_file_load_rules_loop_links _ _ _ Has). simpl.
  destruct ns, as_; reflexivity.
Qed.

(** A list with a section that is not in the file. *)
Lemma mapM_missing_group (keyf : GKeyFile) (s : string) (sections : list string) :
  In s sections ->
  g_key_file_has_group keyf (g_strstrip s) = false ->
  mapM (fun s => returned (policy_load h keyf (g_strstrip s))) sections = None.
Proof.
  intros Hin Hgroup.
  destruct (mapM _ sections) as [ps|] eqn:Hm; [|reflexivity].
  exfalso.
  assert (Hsome : is_Some (mapM (fun s => returned (policy_load h keyf (g_strstrip s)))
                             sections)) by (rewrite Hm; eexists; reflexivity).
  apply mapM_is_Some in Hsome.
  rewrite Forall_forall in Hsome.
  apply list_elem_of_In in Hin. specialize (Hsome s Hin). simpl in Hsome.
  rewrite (policy_load_missing_group _ _ Hgroup) in Hsome.
  destruct Hsome as [p Hp]. discriminate.
Qed.

End ParserFacts.

(** C6.  A rule file whose [Policy] section names, under [Rules] or under
    [AdminRules], a section that the file does not contain gives no rule set,
    whatever was linked into the rule lists before the missing section was
    met: [policy_file_new_from_path] returns NULL, unless the process ends at
    a section met before the missing one; and it does return NULL when no
    section of the file makes [policy_load] read [err->message] through a
    NULL [err]. *)
Theorem policy_file_missing_section_fails (h : Header) (fs : FileSystem)
    (path : string) (keyf : GKeyFile) (key s : string) (sections : list string) :
  g_key_file_load_from_file fs path = Some keyf ->
  key = "Rules" \/ key = "AdminRules" ->
  g_key_file_get_string_list keyf POLICY_SECTION key = GValue sections ->
  In s sections ->
  g_key_file_has_group keyf (g_strstrip s) = false ->
  (forall ret, policy_file_new_from_path h fs path <> Returns (Some ret))
  /\ (policy_file_new_from_path h fs path = Returns None
      \/ policy_file_new_from_path h fs path = NullDereference)
  /\ ((forall section_id, policy_load h keyf section_id <> NullDereference) ->
      policy_file_new_from_path h fs path = Returns None).
Proof.
  intros Hload Hkey Hlist Hin Hgroup.
  assert (Hfail : pass_fails (policy_file_load_rules h keyf key [])).
  { apply policy_file_load_rules_fails. rewrite Hlist.
    apply mapM_missing_group with (s := s); assumption. }
  assert (Hout : policy_file_new_from_path h fs path = Returns None
                 \/ policy_file_new_from_path h fs path = NullDereference).
  { apply policy_file_new_from_path_fails with (keyf := keyf); [assumption|].
    destruct Hkey as [->| ->]; [left | right]; exact Hfail. }
  split; [|split; [exact Hout|]].
  - intros ret Hret. destruct Hout as [Hout|Hout]; congruence.
  - intros Hfree. destruct Hout as [Hout|Hout]; [exact Hout|].
    apply policy_file_new_from_path_crash with (keyf := keyf) in Hout;
      [|assumption].
    destruct Hout as [section_id Hcrash]. destruct (Hfree _ Hcrash).
Qed.

(** The file [broken.keyrules] of the samples: [Rules=Gone], no section
    [Gone]. *)
Lemma policy_file_missing_section_fails_witness :
  (forall ret,
     policy_file_new_from_path sample_header sample_fs
       "/etc/polkit-1/rules.d/broken.keyrules" <> Returns (Some ret))
  /\ (policy_file_new_from_path sample_header sample_fs
        "/etc/polkit-1/rules.d/broken.keyrules" = Returns None
      \/ policy_file_new_from_path sample_header sample_fs
           "/etc/polkit-1/rules.d/broken.keyrules" = NullDereference)
  /\ ((forall section_id,
         policy_load sample_header etc_broken section_id <> NullDereference) ->
      policy_file_new_from_path sample_header sample_fs
        "/etc/polkit-1/rules.d/broken.keyrules" = Returns None).
Proof.
  apply (policy_file_missing_section_fails sample_header sample_fs
           "/etc/polkit-1/rules.d/broken.keyrules" etc_broken "Rules" "Gone" ["Gone"]).
  - reflexivity.
  - left. reflexivity.
  - reflexivity.
  - left. reflexivity.
  - reflexivity.
Defined.

(** C10.  Both keys of the [Policy] section are mandatory: a key file
    without a [Policy] section, or whose [Policy] section lacks [Rules] or
    lacks [AdminRules], gives no rule set.  Without the section or without
    [Rules] NULL is returned before any rule is read; without [AdminRules]
    the rules of [Rules] are read first, and NULL is returned unless the
    process ends at one of them. *)
Theorem policy_file_requires_both_keys (h : Header) (fs : FileSystem)
    (path : string) (keyf : GKeyFile) :
  g_key_file_load_from_file fs path = Some keyf ->
  g_key_file_has_group keyf "Policy" = false
  \/ g_key_file_has_key keyf "Policy" "Rules" = false
  \/ g_key_file_has_key keyf "Policy" "AdminRules" = false ->
  (forall ret, policy_file_new_from_path h fs path <> Returns (Some ret))
  /\ (policy_file_new_from_path h fs path = Returns None
      \/ policy_file_new_from_path h fs path = NullDereference)
  /\ (g_key_file_has_group keyf "Policy" = false
      \/ g_key_file_has_key keyf "Policy" "Rules" = false ->
      policy_file_new_from_path h fs path = Returns None)
  /\ ((forall section_id, policy_load h keyf section_id <> NullDereference) ->
      policy_file_new_from_path h fs path = Returns None).
Proof.
  intros Hload Hmiss.
  assert (Hget : forall key,
             g_key_file_has_group keyf "Policy" = false
             \/ g_key_file_has_key keyf "Policy" key = false ->
             exists e, g_key_file_get_string_list keyf POLICY_SECTION key = GErrorSet e).
  { intros key. unfold g_key_file_get_string_list, g_key_file_get, POLICY_SECTION,
      g_key_file_has_group, g_key_file_has_key.
    destruct (keyf !! "Policy") as [g|]; [|intros _; eexists; reflexivity].
    intros [Hm|Hm]; [discriminate|].
    destruct (g !! key); [discriminate | eexists; reflexivity]. }
  assert (Hout : policy_file_new_from_path h fs path = Returns None
                 \/ policy_file_new_from_path h fs path = NullDereference).
  { apply policy_file_new_from_path_fails with (keyf := keyf); [assumption|].
    destruct Hmiss as [Hm|[Hm|Hm]].
    - left. apply policy_file_load_rules_fails.
      destruct (Hget "Rules" (or_introl Hm)) as [e ->]. exact I.
    - left. apply policy_file_load_rules_fails.
      destruct (Hget "Rules" (or_intror Hm)) as [e ->]. exact I.
    - right. apply policy_file_load_rules_fails.
      destruct (Hget "AdminRules" (or_intror Hm)) as [e ->]. exact I. }
  split; [|split; [exact Hout|split]].
  - intros ret Hret. destruct Hout as [Hout|Hout]; congruence.
  - intros Hm. destruct (Hget "Rules" Hm) as [e He].
    unfold policy_file_new_from_path, policy_file_load_rules.
    rewrite Hload, He. reflexivity.
  - intros Hfree. destruct Hout as [Hout|Hout]; [exact Hout|].
    apply policy_file_new_from_path_crash with (keyf := keyf) in Hout;
      [|assumption].
    destruct Hout as [section_id Hcrash]. destruct (Hfree _ Hcrash).
Qed.

(** A file with [Rules] and without [AdminRules]. *)
Lemma policy_file_requires_both_keys_witness :
  let fs := {| g_dir_open := fun _ => None;
               g_key_file_load_from_file := fun _ => Some only_rules |} in
  let path := "/etc/polkit-1/rules.d/only.keyrules" in
  (forall ret, policy_file_new_from_path sample_header fs path <> Returns (Some ret))
  /\ (policy_file_new_from_path sample_header fs path = Returns None
      \/ policy_file_new_from_path sample_header fs path = NullDereference)
  /\ (g_key_file_has_group only_rules "Policy" = false
      \/ g_key_file_has_key only_rules "Policy" "Rules" = false ->
      policy_file_new_from_path sample_header fs path = Returns None)
  /\ ((forall section_id,
         policy_load sample_header only_rules section_id <> NullDereference) ->
      policy_file_new_from_path sample_header fs path = Returns None).
Proof.
  apply (policy_file_requires_both_keys sample_header _ _ only_rules).
  - reflexivity.
  - right. right. reflexivity.
Defined.

(** C9.  Parsing is a function of the content of the file alone: two parses
    that read the same key file, whatever the path and the rest of the file
    system, return structurally equal results, and so do two parses of the
    same file. *)
Theorem policy_file_new_from_path_deterministic (h : Header)
    (fs1 fs2 : FileSystem) (path1 path2 : string) :
  g_key_file_load_from_file fs1 path1 = g_key_file_load_from_file fs2 path2 ->
  policy_file_new_from_path h fs1 path1 = policy_file_new_from_path h fs2 path2.
Proof.
  intros Hsame. unfold policy_file_new_from_path. rewrite Hsame. reflexivity.
Qed.

(** The same key file under two paths of two file systems. *)
Lemma policy_file_new_from_path_deterministic_witness :
  policy_file_new_from_path sample_header sample_fs
    "/etc/polkit-1/rules.d/same.keyrules"
  = policy_file_new_from_path sample_header
      {| g_dir_open := fun _ => None;
         g_key_file_load_from_file := fun _ => Some etc_same |}
      "/srv/copy.keyrules".
Proof.
  apply (policy_file_new_from_path_deterministic sample_header).
  reflexivity.
Defined.
(** Closed questions to a sample key file are answered by evaluation. *)
Ltac eval_keys :=
  repeat match goal with
         | |- context [g_key_file_has_group ?f ?s] =>
             let v := eval vm_compute in (g_key_file_has_group f s) in
             progress (replace (g_key_file_has_group f s) with v
                         by (vm_compute; reflexivity))
         | |- context [g_key_file_has_key ?f ?s ?k] =>
             let v := eval vm_compute in (g_key_file_has_key f s k) in
             progress (replace (g_key_file_has_key f s k) with v
                         by (vm_compute; reflexivity))
         | |- context [g_key_file_get_string ?f ?s ?k] =>
             let v := eval vm_compute in (g_key_file_get_string f s k) in
             progress (replace (g_key_file_get_string f s k) with v
                         by (vm_compute; reflexivity))
         | |- context [g_key_file_get_string_list ?f ?s ?k] =>
             let v := eval vm_compute in (g_key_file_get_string_list f s k) in
             progress (replace (g_key_file_get_string_list f s k) with v
                         by (vm_compute; reflexivity))
         | |- context [g_key_file_get_boolean ?f ?s ?k] =>
             let v := eval vm_compute in (g_key_file_get_boolean f s k) in
             progress (replace (g_key_file_get_boolean f s k) with v
                         by (vm_compute; reflexivity))
         end.

(** The rule [R1] of [bad_inverse] loads, with the inverse response of a
    text that is no keyword. *)
Lemma policy_load_bad_inverse (h : Header) :
  PK_RESPONSE_YES h <> PK_RESPONSE_UNHANDLED h ->
  policy_load h bad_inverse "R1" = Returns (Some (accepted_policy h)).
Proof.
  intros Hyes. apply Z.eqb_neq in Hyes.
  rewrite policy_load_equation.
  assert (Hloads : section_loads h bad_inverse "R1" = true).
  { unfold section_loads, response_at_inverse, result_of. eval_keys. simpl.
    change (policy_string_to_result h (g_strstrip "yes")) with (PK_RESPONSE_YES h).
    rewrite Hyes. reflexivity. }
  rewrite Hloads. reflexivity.
Qed.

(** The process ends in the rule [R1] of [bad_result]. *)
Lemma policy_load_bad_result (h : Header) :
  policy_load h bad_result "R1" = NullDereference.
Proof.
  rewrite policy_load_equation.
  assert (Hloads : section_loads h bad_result "R1" = false).
  { unfold section_loads, response_at_inverse, result_of. eval_keys. simpl.
    change (policy_string_to_result h (g_strstrip "bogus"))
      with (PK_RESPONSE_UNHANDLED h).
    rewrite Z.eqb_refl. reflexivity. }
  assert (Hcrashes : section_crashes h bad_result "R1" = true).
  { unfold section_crashes, response_at_inverse, result_of. eval_keys. simpl.
    change (policy_string_to_result h (g_strstrip "bogus"))
      with (PK_RESPONSE_UNHANDLED h).
    rewrite Z.eqb_refl. reflexivity. }
  rewrite Hloads, Hcrashes. reflexivity.
Qed.

(** C4.  The code at the failing input: a rule with [Result=yes] and
    [ResultInverse=bogus].  [bogus] is none of the six keywords, yet the file
    parses and its rule carries [PK_RESPONSE_UNHANDLED] as inverse response
    with the [ResultInverse] flag set.  With the two values exchanged the
    text that is no keyword is caught, and the file gives no rule set: the
    process ends at the label [handle_err], where [err] is NULL. *)
Theorem policy_load_accepts_unknown_result_inverse (h : Header) :
  PK_RESPONSE_YES h <> PK_RESPONSE_UNHANDLED h ->
  policy_string_to_result h (g_strstrip "bogus") = PK_RESPONSE_UNHANDLED h
  /\ policy_file_new_from_path h sample_fs "/tmp/bad_inverse.keyrules"
     = Returns (Some {| rules := {| normal := [accepted_policy h]; admin := [] |} |})
  /\ policy_file_new_from_path h sample_fs "/tmp/bad_result.keyrules"
     = NullDereference.
Proof.
  intros Hyes.
  assert (Hstrip : g_strstrip "R1" = "R1") by reflexivity.
  split; [reflexivity|]. split.
  - apply policy_file_new_from_path_links
      with (keyf := bad_inverse) (rs := ["R1"]) (ads := []);
      try (vm_compute; reflexivity).
    simpl mapM. rewrite Hstrip, (policy_load_bad_inverse h Hyes). reflexivity.
  - unfold policy_file_new_from_path, policy_file_load_rules.
    assert (Hfile : g_key_file_load_from_file sample_fs "/tmp/bad_result.keyrules"
                    = Some bad_result) by (vm_compute; reflexivity).
    assert (Hrules : g_key_file_get_string_list bad_result POLICY_SECTION "Rules"
                     = GValue ["R1"]) by (vm_compute; reflexivity).
    rewrite Hfile, Hrules. simpl.
    rewrite Hstrip, policy_load_bad_result. reflexivity.
Qed.

(** The same at the sample values of the enumerators. *)
Lemma policy_load_accepts_unknown_result_inverse_witness :
  policy_string_to_result sample_header (g_strstrip "bogus")
  = PK_RESPONSE_UNHANDLED sample_header
  /\ policy_file_new_from_path sample_header sample_fs "/tmp/bad_inverse.keyrules"
     = Returns (Some {| rules := {| normal := [accepted_policy sample_header];
                                    admin := [] |} |})
  /\ policy_file_new_from_path sample_header sample_fs "/tmp/bad_result.keyrules"
     = NullDereference.
Proof.
  apply (policy_load_accepts_unknown_result_inverse sample_header).
  simpl. lia.
Defined.
(** *** The entry points of the interactive authority *)

(** C2 as stated fails: for a chain loaded from [/usr] alone, whose first
    rule allows the action, the contract's walk answers "authorized", and for
    an action no rule decides it answers the implicit default; the entry
    point answers "not authorized" both times. *)
Lemma check_authorization_sync_ignores_chain :
  let authority :=
    {| priv := {| rules_dirs := Some [usr_dir];
                  policy := parsed sample_header sample_fs
                              [usr_dir +:+ "/same.keyrules"] |};
       logged := []; emitted := [] |} in
  let check := fun action_id implicit =>
    polkit_backend_keyfile_authority_check_authorization_sync authority
      (PolkitSystemBusName ":1.7") (PolkitUnixProcess 4242) (PolkitUnixUser 1000)
      true true action_id [] implicit in
  let contract := fun action_id implicit =>
    Contract.evaluate sample_header (policy (priv authority))
      {| Contract.user_name := "alice"; Contract.groups := ["users"];
         Contract.netgroups := []; Contract.is_local := true;
         Contract.is_active := true; Contract.action := action_id |}
      implicit in
  length (policy (priv authority)) = 1%nat
  /\ contract "org.example.action1" POLKIT_IMPLICIT_AUTHORIZATION_UNKNOWN
     = POLKIT_IMPLICIT_AUTHORIZATION_AUTHORIZED
  /\ check "org.example.action1" POLKIT_IMPLICIT_AUTHORIZATION_UNKNOWN
     = POLKIT_IMPLICIT_AUTHORIZATION_NOT_AUTHORIZED
  /\ contract "org.example.other"
       POLKIT_IMPLICIT_AUTHORIZATION_AUTHENTICATION_REQUIRED
     = POLKIT_IMPLICIT_AUTHORIZATION_AUTHENTICATION_REQUIRED
  /\ check "org.example.other"
       POLKIT_IMPLICIT_AUTHORIZATION_AUTHENTICATION_REQUIRED
     = POLKIT_IMPLICIT_AUTHORIZATION_NOT_AUTHORIZED
  /\ check "org.example.action1" POLKIT_IMPLICIT_AUTHORIZATION_UNKNOWN
     <> contract "org.example.action1" POLKIT_IMPLICIT_AUTHORIZATION_UNKNOWN.
Proof. vm_compute. repeat split; try reflexivity. intros H. discriminate H. Qed.

(** C2, amended.  The authorization check does not walk the chain: whatever
    the authority, the subject and the caller-supplied implicit default, it
    answers "not authorized"; it agrees with the contract's walk exactly
    when that walk answers "not authorized" too. *)
Theorem check_authorization_sync_fixed (h : Header)
    (authority : PolkitBackendKeyfileAuthority) (caller subject : PolkitSubject)
    (user_for_subject : PolkitIdentity) (subject_is_local subject_is_active : bool)
    (action_id : string) (details : PolkitDetails)
    (implicit : PolkitImplicitAuthorization) (ctx : Contract.SubjectContext) :
  polkit_backend_keyfile_authority_check_authorization_sync authority caller
    subject user_for_subject subject_is_local subject_is_active action_id
    details implicit
  = POLKIT_IMPLICIT_AUTHORIZATION_NOT_AUTHORIZED
  /\ (polkit_backend_keyfile_authority_check_authorization_sync authority caller
        subject user_for_subject subject_is_local subject_is_active action_id
        details implicit
      = Contract.evaluate h (policy (priv authority)) ctx implicit
      <-> Contract.evaluate h (policy (priv authority)) ctx implicit
          = POLKIT_IMPLICIT_AUTHORIZATION_NOT_AUTHORIZED).
Proof.
  unfold polkit_backend_keyfile_authority_check_authorization_sync.
  split; [reflexivity|]. split; intros H; congruence.
Qed.

(** C3 as stated fails: with [/etc] and [/usr] loaded, the admin rule of
    each file is satisfied by a subject in the groups [wheel] and [adm]; the
    contract's resolver returns both groups, the entry point returns the
    super user alone. *)
Lemma get_admin_auth_identities_ignores_chain :
  let authority :=
    {| priv := {| rules_dirs := Some [etc_dir; usr_dir];
                  policy := parsed sample_header sample_fs
                              [etc_dir +:+ "/same.keyrules";
                               usr_dir +:+ "/same.keyrules"] |};
       logged := []; emitted := [] |} in
  length (policy (priv authority)) = 2%nat
  /\ Contract.resolve_admins sample_header sample_ns (policy (priv authority)) alice
     = [PolkitUnixGroup 10; PolkitUnixGroup 4]
  /\ polkit_backend_keyfile_authority_get_admin_auth_identities authority
       (PolkitSystemBusName ":1.7") (PolkitUnixProcess 4242) (PolkitUnixUser 1000)
       true true "org.example.action1" []
     = [PolkitUnixUser 0]
  /\ polkit_backend_keyfile_authority_get_admin_auth_identities authority
       (PolkitSystemBusName ":1.7") (PolkitUnixProcess 4242) (PolkitUnixUser 1000)
       true true "org.example.action1" []
     <> Contract.resolve_admins sample_header sample_ns (policy (priv authority)) alice.
Proof. vm_compute. repeat split; try reflexivity. intros H. discriminate H. Qed.

(** C3, amended.  Admin identity resolution does not read the chain:
    whatever the authority and the subject, the result is the one identity
    of the super user, unix user 0; no admin rule contributes to it. *)
Theorem get_admin_auth_identities_fixed
    (authority : PolkitBackendKeyfileAuthority) (caller subject : PolkitSubject)
    (user_for_subject : PolkitIdentity) (subject_is_local subject_is_active : bool)
    (action_id : string) (details : PolkitDetails) :
  polkit_backend_keyfile_authority_get_admin_auth_identities authority caller
    subject user_for_subject subject_is_local subject_is_active action_id details
  = [polkit_unix_user_new 0].
Proof.
  unfold polkit_backend_keyfile_authority_get_admin_auth_identities.
  reflexivity.
Qed.

(** *** The chain loader *)

Lemma authority_eq (a b : PolkitBackendKeyfileAuthority) :
  rules_dirs (priv a) = rules_dirs (priv b) ->
  policy (priv a) = policy (priv b) ->
  logged a = logged b -> emitted a = emitted b -> a = b.
Proof.
  destruct a as [[da pa] la ea], b as [[db pb] lb eb]. simpl.
  intros -> -> -> ->. reflexivity.
Qed.

Section LoaderFacts.

Variable h : Header.
Variable fs : FileSystem.

Lemma load_scripts_dir_keeps (st : list string * PolkitBackendKeyfileAuthority)
    (dir_name : string) :
  priv (snd (load_scripts_dir fs st dir_name)) = priv (snd st)
  /\ emitted (snd (load_scripts_dir fs st dir_name)) = emitted (snd st).
Proof.
  destruct st as [files a]. unfold load_scripts_dir.
  destruct (g_dir_open fs dir_name); split; reflexivity.
Qed.

Lemma load_scripts_dirs_fold_keeps (dirs : list string)
    (st : list string * PolkitBackendKeyfileAuthority) :
  priv (snd (fold_left (load_scripts_dir fs) dirs st)) = priv (snd st)
  /\ emitted (snd (fold_left (load_scripts_dir fs) dirs st)) = emitted (snd st).
Proof.
  revert st. induction dirs as [|d dirs IH]; intros st; [split; reflexivity|].
  simpl. destruct (IH (load_scripts_dir fs st d)) as [-> ->].
  apply load_scripts_dir_keeps.
Qed.

Lemma load_scripts_dirs_keeps (a : PolkitBackendKeyfileAuthority) :
  priv (snd (load_scripts_dirs fs a)) = priv a
  /\ emitted (snd (load_scripts_dirs fs a)) = emitted a.
Proof. apply (load_scripts_dirs_fold_keeps _ ([], a)). Qed.

Lemma load_scripts_dirs_fold (dirs : list string)
    (st : list string * PolkitBackendKeyfileAuthority) :
  fst (fold_left (load_scripts_dir fs) dirs st) = discovered fs dirs (fst st)
  /\ logged (snd (fold_left (load_scripts_dir fs) dirs st))
     = logged (snd st) ++ directory_log fs dirs.
Proof.
  unfold discovered, directory_log. revert st.
  induction dirs as [|d dirs IH]; intros st.
  - simpl. rewrite app_nil_r. split; reflexivity.
  - cbn [fold_left flat_map].
    destruct (IH (load_scripts_dir fs st d)) as [H1 H2]. rewrite H1, H2.
    destruct st as [files a]. unfold load_scripts_dir.
    destruct (g_dir_open fs d); simpl; rewrite <- ?app_assoc; split; reflexivity.
Qed.

(** The files the first loop hands to the sort. *)
Lemma load_scripts_dirs_discovered (a : PolkitBackendKeyfileAuthority) :
  fst (load_scripts_dirs fs a) = discovered fs (rules_dirs_list a) [].
Proof. apply (load_scripts_dirs_fold _ ([], a)). Qed.

Lemma scan_left_length {A B : Type} (f : A -> B -> A) (l : list B) (a : A) :
  length (scan_left f l a) = length l.
Proof.
  revert a. induction l as [|x l IH]; intros a; simpl; [reflexivity|].
  rewrite IH. reflexivity.
Qed.

Lemma scan_left_dirs_keep (dirs : list string)
    (st : list string * PolkitBackendKeyfileAuthority) :
  Forall (fun s => priv (snd s) = priv (snd st))
    (scan_left (load_scripts_dir fs) dirs st).
Proof.
  revert st. induction dirs as [|d dirs IH]; intros st; simpl; constructor.
  - apply load_scripts_dir_keeps.
  - eapply Forall_impl; [apply IH|]. simpl. intros s ->.
    apply load_scripts_dir_keeps.
Qed.

(** The chain stays as it is while the directories are read. *)
Lemma scan_left_dirs_chain (dirs : list string)
    (st : list string * PolkitBackendKeyfileAuthority) :
  map (fun s => policy (priv (snd s))) (scan_left (load_scripts_dir fs) dirs st)
  = replicate (length dirs) (policy (priv (snd st))).
Proof.
  pose proof (scan_left_dirs_keep dirs st) as Hkeep.
  rewrite <- (scan_left_length (load_scripts_dir fs) dirs st).
  induction Hkeep as [|s l Hs _ IH]; simpl; [reflexivity|].
  rewrite Hs, IH. reflexivity.
Qed.

(** A file that parses is linked, and counted. *)
Lemma load_scripts_file_parses (st : LoadState) (f : string) (file : PolicyFile) :
  policy_file_new_from_path h fs f = Returns (Some file) ->
  load_scripts_file h fs st f
  = Returns
      {| ls_authority :=
           if ls_last st
           then set_policy (ls_authority st) (policy (priv (ls_authority st)) ++ [file])
           else set_policy (ls_authority st) [file];
         ls_last := true;
         ls_num_scripts := S (ls_num_scripts st) |}.
Proof. intros Hf. unfold load_scripts_file. rewrite Hf. reflexivity. Qed.

(** At a file that does not parse the process ends. *)
Lemma load_scripts_file_fails (st : LoadState) (f : string) :
  ~ parses h fs f -> load_scripts_file h fs st f = NullDereference.
Proof.
  unfold parses, load_scripts_file. intros Hnot.
  pose proof (policy_file_new_from_path_never_aborts h fs f) as Hab.
  destruct (policy_file_new_from_path h fs f) as [[file|]| |]; simpl.
  - exfalso. apply Hnot. eexists. reflexivity.
  - reflexivity.
  - contradiction.
  - reflexivity.
Qed.

Lemma parses_returns (f : string) :
  parses h fs f ->
  exists file, policy_file_new_from_path h fs f = Returns (Some file).
Proof.
  unfold parses. intros [file Hfile].
  destruct (policy_file_new_from_path h fs f) as [[file'|]| |]; try discriminate.
  exists file'. reflexivity.
Qed.

Lemma parsed_cons (f : string) (files : list string) (file : PolicyFile) :
  policy_file_new_from_path h fs f = Returns (Some file) ->
  parsed h fs (f :: files) = file :: parsed h fs files.
Proof. intros Hf. unfold parsed. simpl. rewrite Hf. reflexivity. Qed.

(** Every file of a list that parses gives one rule set. *)
Lemma parsed_length (files : list string) :
  Forall (parses h fs) files -> length (parsed h fs files) = length files.
Proof.
  induction 1 as [|f files Hf _ IH]; [reflexivity|].
  destruct (parses_returns f Hf) as [file Hfile].
  rewrite (parsed_cons _ _ _ Hfile). simpl. rewrite IH. reflexivity.
Qed.

(** The second loop over files that all parse: it returns, every rule set
    is linked in the order of the files, and nothing is logged. *)
Lemma load_scripts_files_loop_parses (files : list string) (st : LoadState) :
  Forall (parses h fs) files ->
  exists st',
    load_scripts_files_loop h fs files st = Returns st'
    /\ chain_of st'
       = (if ls_last st then chain_of st ++ parsed h fs files
          else match files with
               | [] => chain_of st
               | _ => parsed h fs files
               end)
    /\ ls_num_scripts st' = (ls_num_scripts st + length files)%nat
    /\ logged (ls_authority st') = logged (ls_authority st)
    /\ emitted (ls_authority st') = emitted (ls_authority st)
    /\ rules_dirs (priv (ls_authority st')) = rules_dirs (priv (ls_authority st)).
Proof.
  intros Hall. revert st. induction Hall as [|f files Hf _ IH]; intros st.
  - exists st. simpl. unfold parsed. simpl. rewrite app_nil_r, Nat.add_0_r.
    destruct (ls_last st); repeat split; reflexivity.
  - destruct (parses_returns f Hf) as [file Hfile].
    cbn [load_scripts_files_loop].
    rewrite (load_scripts_file_parses st f file Hfile).
    destruct (IH {| ls_authority :=
                      if ls_last st
                      then set_policy (ls_authority st)
                             (policy (priv (ls_authority st)) ++ [file])
                      else set_policy (ls_authority st) [file];
                    ls_last := true;
                    ls_num_scripts := S (ls_num_scripts st) |})
      as (st' & Hloop & Hchain & Hnum & Hlog & Hemit & Hdirs).
    exists st'. split; [exact Hloop|].
    rewrite Hchain, Hnum, Hlog, Hemit, Hdirs, (parsed_cons _ _ _ Hfile).
    unfold chain_of. cbn [ls_last ls_authority ls_num_scripts length].
    destruct (ls_last st); simpl; rewrite <- ?app_assoc;
      repeat split; try reflexivity; lia.
Qed.

(** With a file that does not parse the process ends in the second loop. *)
Lemma load_scripts_files_loop_fails (files : list string) (st : LoadState) :
  ~ Forall (parses h fs) files ->
  load_scripts_files_loop h fs files st = NullDereference.
Proof.
  revert st. induction files as [|f files IH]; intros st Hnot.
  - exfalso. apply Hnot. constructor.
  - simpl. destruct (decide (parses h fs f)) as [Hf|Hf].
    + destruct (parses_returns f Hf) as [file Hfile].
      rewrite (load_scripts_file_parses st f file Hfile).
      apply IH. intros Hall. apply Hnot. constructor; assumption.
    + rewrite (load_scripts_file_fails st f Hf). reflexivity.
Qed.

(** The chains the second loop passes over files that all parse: after the
    n-th file, the rule sets of the first n files after what was there. *)
Lemma load_scripts_files_trace_parses (files : list string) (st : LoadState) :
  Forall (parses h fs) files ->
  map chain_of (load_scripts_files_trace h fs files st)
  = map (fun n => (if ls_last st then chain_of st else [])
                  ++ take n (parsed h fs files))
      (seq 1 (length files)).
Proof.
  intros Hall. revert st. induction Hall as [|f files Hf _ IH]; intros st;
    [reflexivity|].
  destruct (parses_returns f Hf) as [file Hfile].
  cbn [load_scripts_files_trace length seq map].
  rewrite (load_scripts_file_parses st f file Hfile).
  cbn [map]. rewrite IH, (parsed_cons _ _ _ Hfile).
  rewrite <- (seq_shift (length files) 1), map_map. unfold chain_of. simpl. f_equal.
  - destruct (ls_last st); reflexivity.
  - apply map_ext. intros n. destruct (ls_last st); simpl;
      rewrite <- ?app_assoc; reflexivity.
Qed.

End LoaderFacts.

(** How [load_scripts] ends, from the files found alone. *)
Lemma load_scripts_outcome (libc : Libc) (h : Header) (fs : FileSystem)
    (authority : PolkitBackendKeyfileAuthority) :
  load_scripts libc h fs authority
  = match g_list_sort (discovered fs (rules_dirs_list authority) [])
            (rules_file_name_cmp libc) with
    | None => AssertionFailed
    | Some sorted =>
        if bool_decide (Forall (parses h fs) sorted)
        then Returns (loaded h fs authority sorted)
        else NullDereference
    end.
Proof.
  unfold load_scripts, load_scripts_dirs.
  pose proof (load_scripts_dirs_fold fs (rules_dirs_list authority)
                ([], authority)) as [Hfiles Hlog].
  pose proof (load_scripts_dirs_fold_keeps fs (rules_dirs_list authority)
                ([], authority)) as [Hpriv Hemit].
  destruct (fold_left (load_scripts_dir fs) (rules_dirs_list authority)
              ([], authority)) as [files listed].
  simpl in Hfiles, Hlog, Hpriv, Hemit. subst files.
  destruct (g_list_sort _ (rules_file_name_cmp libc)) as [sorted|]; [|reflexivity].
  unfold load_scripts_files.
  destruct (bool_decide_reflect (Forall (parses h fs) sorted)) as [Hall|Hnot].
  - destruct (load_scripts_files_loop_parses h fs sorted
                {| ls_authority := listed; ls_last := false; ls_num_scripts := 0 |}
                Hall)
      as (st' & -> & Hchain & Hnum & Hl & He & Hd).
    simpl in *. f_equal. unfold chain_of in Hchain. simpl in Hchain.
    apply authority_eq; simpl.
    + rewrite Hd, Hpriv. reflexivity.
    + rewrite Hchain, Hpriv. destruct sorted; reflexivity.
    + rewrite Hl, Hnum, Hlog, <- app_assoc. reflexivity.
    + rewrite He, Hemit. reflexivity.
  - rewrite (load_scripts_files_loop_fails h fs sorted _ Hnot). reflexivity.
Qed.

(** How [reload_scripts] ends. *)
Lemma reload_scripts_outcome (libc : Libc) (h : Header) (fs : FileSystem)
    (authority : PolkitBackendKeyfileAuthority) :
  reload_scripts libc h fs authority = reload_outcome libc h fs authority.
Proof.
  unfold reload_scripts, reload_outcome. rewrite load_scripts_outcome.
  change (rules_dirs_list (set_policy authority [])) with (rules_dirs_list authority).
  destruct (g_list_sort _ (rules_file_name_cmp libc)) as [sorted|]; [|reflexivity].
  destruct (bool_decide_reflect (Forall (parses h fs) sorted)) as [Hall|Hnot];
    [|reflexivity].
  simpl. f_equal. apply authority_eq; simpl; try reflexivity.
  destruct sorted as [|f sorted]; [reflexivity|]. reflexivity.
Qed.

(** C5.  The code at a list of rule files one of which does not parse.  The
    second loop of [load_scripts] means to log the file and to go on, but the
    argument [err->message] of its log call is read through an [err] that
    [policy_file_new_from_path] never sets: the process ends at the first
    file that does not parse, with nothing logged about it and no chain of the
    files that do parse.  The load returns only when every file parses. *)
Theorem load_scripts_ends_at_unparsable_file (libc : Libc) (h : Header)
    (fs : FileSystem) (authority : PolkitBackendKeyfileAuthority)
    (files : list string) :
  g_list_sort (fst (load_scripts_dirs fs authority)) (rules_file_name_cmp libc)
  = Some files ->
  (forall f, In f files -> ~ parses h fs f ->
             load_scripts libc h fs authority = NullDereference)
  /\ (Forall (parses h fs) files ->
      load_scripts libc h fs authority = Returns (loaded h fs authority files)).
Proof.
  rewrite load_scripts_dirs_discovered, load_scripts_outcome. intros ->.
  destruct (bool_decide_reflect (Forall (parses h fs) files)) as [Hall|Hnot].
  - split; [|reflexivity].
    intros f Hin Hf. rewrite Forall_forall in Hall.
    destruct (Hf (Hall f (proj2 (list_elem_of_In _ _) Hin))).
  - split; [reflexivity|]. intros Hall. contradiction.
Qed.

(** A load over the samples: the process ends at [broken.keyrules], the
    first file of the sorted list. *)
Lemma load_scripts_ends_at_unparsable_file_witness :
  (forall f,
     In f ["/etc/polkit-1/rules.d/broken.keyrules";
           "/etc/polkit-1/rules.d/same.keyrules";
           "/usr/share/polkit-1/rules.d/same.keyrules"] ->
     ~ parses sample_header sample_fs f ->
     load_scripts sample_libc sample_header sample_fs etc_first = NullDereference)
  /\ (Forall (parses sample_header sample_fs)
        ["/etc/polkit-1/rules.d/broken.keyrules";
         "/etc/polkit-1/rules.d/same.keyrules";
         "/usr/share/polkit-1/rules.d/same.keyrules"] ->
      load_scripts sample_libc sample_header sample_fs etc_first
      = Returns (loaded sample_header sample_fs etc_first
                   ["/etc/polkit-1/rules.d/broken.keyrules";
                    "/etc/polkit-1/rules.d/same.keyrules";
                    "/usr/share/polkit-1/rules.d/same.keyrules"])).
Proof.
  apply (load_scripts_ends_at_unparsable_file sample_libc sample_header sample_fs
           etc_first).
  vm_compute. reflexivity.
Defined.
(** *** The order of the rule files *)

Lemma string_compare_refl (s : string) : String.compare s s = Eq.
Proof.
  induction s as [|c s IH]; [reflexivity|]. simpl.
  unfold Ascii.compare. rewrite N.compare_refl. exact IH.
Qed.

Lemma string_compare_lt_trans (a b c : string) :
  String.compare a b = Lt -> String.compare b c = Lt -> String.compare a c = Lt.
Proof.
  revert b c. induction a as [|x a IH]; intros [|y b] [|z c]; simpl;
    try discriminate; try reflexivity.
  unfold Ascii.compare.
  destruct (N.compare_spec (N_of_ascii x) (N_of_ascii y)) as [Hxy|Hxy|Hxy];
    try discriminate;
    destruct (N.compare_spec (N_of_ascii y) (N_of_ascii z)) as [Hyz|Hyz|Hyz];
    try discriminate; intros H1 H2.
  - rewrite Hxy, Hyz, N.compare_refl. eapply IH; eassumption.
  - rewrite Hxy. apply N.compare_lt_iff in Hyz. rewrite Hyz. reflexivity.
  - rewrite <- Hyz. apply N.compare_lt_iff in Hxy. rewrite Hxy. reflexivity.
  - assert (H : (N_of_ascii x < N_of_ascii z)%N) by lia.
    apply N.compare_lt_iff in H. rewrite H. reflexivity.
Qed.

Lemma string_compare_lt_gt (a b : string) :
  String.compare a b = Lt <-> String.compare b a = Gt.
Proof.
  rewrite (String.compare_antisym a b).
  destruct (String.compare b a); simpl; split; congruence.
Qed.

Lemma path_before_irrefl (a : string) : ~ path_before a a.
Proof.
  intros [H|[_ H]]; rewrite string_compare_refl in H; discriminate.
Qed.

Lemma path_before_trans (a b c : string) :
  path_before a b -> path_before b c -> path_before a c.
Proof.
  intros [Hab|[Eab Hab]] [Hbc|[Ebc Hbc]].
  - left. eapply string_compare_lt_trans; eassumption.
  - left. rewrite <- Ebc. exact Hab.
  - left. rewrite Eab. exact Hbc.
  - right. split; [congruence|]. eapply string_compare_lt_trans; eassumption.
Qed.

Lemma path_before_asym (a b : string) : path_before a b -> path_before b a -> False.
Proof.
  intros Hab Hba. apply (path_before_irrefl a).
  eapply path_before_trans; eassumption.
Qed.

(** On two different paths that contain a [/], no assertion of the
    comparison fails, and its sign is the order [path_before]. *)
Lemma rules_file_name_cmp_spec (libc : Libc) (a b : string) :
  has_slash a -> has_slash b -> a <> b ->
  exists ret,
    rules_file_name_cmp libc a b = Some ret
    /\ ((ret <=? 0) = true -> path_before a b)
    /\ ((ret <=? 0) = false -> path_before b a).
Proof.
  unfold has_slash, rules_file_name_cmp, path_before, basename, g_strcmp0, strcmp.
  intros Ha Hb Hne.
  destruct (strrchr a "/") as [ra|]; [|contradiction].
  destruct (strrchr b "/") as [rb|]; [|contradiction]. simpl.
  destruct (String.compare (str_plus_1 ra) (str_plus_1 rb)) eqn:Hbase; simpl.
  - apply String.compare_eq_iff in Hbase.
    destruct (String.compare a b) eqn:Hfull; simpl.
    + apply String.compare_eq_iff in Hfull. contradiction.
    + eexists. split; [reflexivity|]. split; [|discriminate].
      intros _. right. split; [assumption | reflexivity].
    + eexists. split; [reflexivity|]. split; [discriminate|].
      intros _. right. split; [congruence|].
      apply string_compare_lt_gt. exact Hfull.
  - eexists. split; [reflexivity|]. split; [|discriminate].
    intros _. left. reflexivity.
  - eexists. split; [reflexivity|]. split; [discriminate|].
    intros _. left. apply string_compare_lt_gt. exact Hbase.
Qed.

Lemma g_list_insert_sorted_spec (libc : Libc) (x : string) (l : list string) :
  has_slash x -> Forall has_slash l -> x ∉ l ->
  StronglySorted path_before l ->
  exists l',
    g_list_insert_sorted (rules_file_name_cmp libc) x l = Some l'
    /\ x :: l ≡ₚ l'
    /\ StronglySorted path_before l'.
Proof.
  intros Hx. induction l as [|y l IH]; intros Hl Hnin Hsorted.
  - exists [x]. repeat split; [reflexivity | repeat constructor].
  - apply Forall_cons in Hl as [Hy Hl].
    apply not_elem_of_cons in Hnin as [Hxy Hnin].
    apply StronglySorted_inv in Hsorted as [Hsorted Hyl].
    destruct (rules_file_name_cmp_spec libc x y Hx Hy Hxy) as (ret & Hret & Hle & Hgt).
    simpl. rewrite Hret. simpl.
    destruct (ret <=? 0) eqn:Hsign.
    + exists (x :: y :: l). split; [reflexivity|]. split; [reflexivity|].
      constructor; [constructor; assumption|].
      constructor; [apply Hle; reflexivity|].
      eapply Forall_impl; [exact Hyl|].
      intros z Hz. eapply path_before_trans; [apply Hle; reflexivity | exact Hz].
    + destruct (IH Hl Hnin Hsorted) as (l' & Hins & Hperm & Hs').
      rewrite Hins. simpl.
      exists (y :: l'). split; [reflexivity|]. split.
      * rewrite <- Hperm. apply perm_swap.
      * constructor; [exact Hs'|].
        rewrite <- Hperm. constructor; [apply Hgt; reflexivity | exact Hyl].
Qed.

(** The sort returns, and what it returns is the sorted permutation. *)
Lemma g_list_sort_spec (libc : Libc) (l : list string) :
  Forall has_slash l -> NoDup l ->
  exists l',
    g_list_sort l (rules_file_name_cmp libc) = Some l'
    /\ l ≡ₚ l'
    /\ StronglySorted path_before l'.
Proof.
  induction l as [|x l IH]; intros Hl Hnd.
  - exists []. repeat split; constructor.
  - apply Forall_cons in Hl as [Hx Hl].
    apply NoDup_cons in Hnd as [Hnin Hnd].
    destruct (IH Hl Hnd) as (l' & Hsort & Hperm & Hs').
    simpl. rewrite Hsort. simpl.
    destruct (g_list_insert_sorted_spec libc x l') as (l'' & Hins & Hperm' & Hs'').
    + exact Hx.
    + rewrite <- Hperm. exact Hl.
    + rewrite <- Hperm. exact Hnin.
    + exact Hs'.
    + exists l''. split; [exact Hins|]. split; [|exact Hs''].
      rewrite <- Hperm'. constructor. exact Hperm.
Qed.

(** Every path the first loop collects is a directory, a [/] and a name. *)
Lemma strrchr_dir_slash_name (dir_name name : string) :
  has_slash (dir_name +:+ "/" +:+ name).
Proof.
  unfold has_slash. induction dir_name as [|c d IH].
  - rewrite append_empty, append_cons, append_empty. simpl.
    destruct (strrchr name "/"); discriminate.
  - rewrite append_cons. simpl.
    destruct (strrchr (d +:+ "/" +:+ name) "/"); [discriminate | contradiction].
Qed.

Lemma prepend_rule_files_slash (dir_name : string) (names files : list string) :
  Forall has_slash files ->
  Forall has_slash (prepend_rule_files dir_name names files).
Proof.
  unfold prepend_rule_files. revert files.
  induction names as [|n names IH]; intros files Hfiles; [exact Hfiles|].
  simpl. apply IH.
  destruct (g_str_has_suffix n ".keyrules"); [|exact Hfiles].
  constructor; [apply strrchr_dir_slash_name | exact Hfiles].
Qed.

Lemma load_scripts_dirs_slash (fs : FileSystem)
    (authority : PolkitBackendKeyfileAuthority) :
  Forall has_slash (fst (load_scripts_dirs fs authority)).
Proof.
  unfold load_scripts_dirs.
  assert (H : forall dirs (st : list string * PolkitBackendKeyfileAuthority),
             Forall has_slash (fst st) ->
             Forall has_slash (fst (fold_left (load_scripts_dir fs) dirs st))).
  { induction dirs as [|d dirs IH]; intros st Hst; [exact Hst|].
    simpl. apply IH. destruct st as [files a]. unfold load_scripts_dir.
    destruct (g_dir_open fs d); simpl; [|exact Hst].
    apply prepend_rule_files_slash. exact Hst. }
  apply H. constructor.
Qed.

(** A path compared with itself fails the assertion that the answer is not
    zero. *)
Lemma rules_file_name_cmp_same (libc : Libc) (x : string) :
  rules_file_name_cmp libc x x = None.
Proof.
  unfold rules_file_name_cmp, g_strcmp0, strcmp.
  destruct (strrchr x "/"); simpl; [|reflexivity].
  rewrite !string_compare_refl. reflexivity.
Qed.

Lemma g_list_insert_sorted_twice (libc : Libc) (x : string) (l : list string) :
  has_slash x -> Forall has_slash l -> StronglySorted path_before l ->
  x ∈ l ->
  g_list_insert_sorted (rules_file_name_cmp libc) x l = None.
Proof.
  intros Hx. induction l as [|y l IH]; intros Hl Hsorted Hin.
  - apply elem_of_nil in Hin. destruct Hin.
  - apply Forall_cons in Hl as [Hy Hl].
    apply StronglySorted_inv in Hsorted as [Hsorted Hyl].
    simpl. destruct (decide (x = y)) as [->|Hne].
    + rewrite rules_file_name_cmp_same. reflexivity.
    + apply elem_of_cons in Hin as [Heq|Hin]; [contradiction|].
      destruct (rules_file_name_cmp_spec libc x y Hx Hy Hne) as (ret & -> & Hle & _).
      simpl. destruct (ret <=? 0) eqn:Hsign.
      * exfalso. rewrite Forall_forall in Hyl.
        apply (path_before_asym x y); [apply Hle; reflexivity | apply Hyl, Hin].
      * rewrite (IH Hl Hsorted Hin). reflexivity.
Qed.

(** A list with a path twice makes the sort compare the path with itself. *)
Lemma g_list_sort_twice (libc : Libc) (l : list string) :
  Forall has_slash l -> ~ NoDup l ->
  g_list_sort l (rules_file_name_cmp libc) = None.
Proof.
  induction l as [|x l IH]; intros Hl Hdup.
  - exfalso. apply Hdup. constructor.
  - apply Forall_cons in Hl as [Hx Hl]. simpl.
    destruct (decide (NoDup l)) as [Hnd|Hnd].
    + destruct (g_list_sort_spec libc l Hl Hnd) as (l' & -> & Hperm & Hsorted).
      simpl. apply g_list_insert_sorted_twice; try assumption.
      * rewrite <- Hperm. exact Hl.
      * rewrite <- Hperm. destruct (decide (x ∈ l)) as [Hin|Hnin]; [exact Hin|].
        exfalso. apply Hdup. apply NoDup_cons. split; assumption.
    + rewrite (IH Hl Hnd). reflexivity.
Qed.

Lemma discovered_slash (fs : FileSystem) (dirs : list string) :
  Forall has_slash (discovered fs dirs []).
Proof.
  pose proof (load_scripts_dirs_slash fs
                {| priv := {| rules_dirs := Some dirs; policy := [] |};
                   logged := []; emitted := [] |}) as H.
  rewrite load_scripts_dirs_discovered in H. exact H.
Qed.

(** C7 as stated fails: with [/usr] configured before [/etc] and a file
    [same.keyrules] in both, the file of [/etc] is sorted first and its rule
    set precedes that of [/usr] in the chain, though [/usr] is listed earlier. *)
Lemma rule_file_order_ignores_directory_order :
  rules_dirs (priv usr_first) = Some [usr_dir; etc_dir]
  /\ g_list_sort (fst (load_scripts_dirs clean_fs usr_first))
       (rules_file_name_cmp sample_libc)
     = Some ["/etc/polkit-1/rules.d/same.keyrules";
             "/usr/share/polkit-1/rules.d/same.keyrules"]
  /\ (fun a => policy (priv a))
       <$> reload_scripts sample_libc sample_header clean_fs usr_first
     = Returns (parsed sample_header clean_fs
                  ["/etc/polkit-1/rules.d/same.keyrules";
                   "/usr/share/polkit-1/rules.d/same.keyrules"])
  /\ (fun a => map (fun f => map PolicyFile.id (normal (rules f))) (policy (priv a)))
       <$> reload_scripts sample_libc sample_header clean_fs usr_first
     = Returns [["Deny"]; ["Allow"]].
Proof. vm_compute. repeat split. Qed.

(** C7, amended.  The rule files found are sorted by base file name first;
    two files of the same base name are ordered by their full paths compared
    byte by byte, the smaller path first ([/etc] before [/usr]).  The sorted
    list is the same for every order in which the files are found: the order
    of the configured directories plays no part.  This holds whatever the C
    library answers beyond the sign of a comparison. *)
Theorem rule_files_sorted_by_name_then_path (libc : Libc) (fs : FileSystem)
    (authority : PolkitBackendKeyfileAuthority) :
  NoDup (fst (load_scripts_dirs fs authority)) ->
  exists files,
    g_list_sort (fst (load_scripts_dirs fs authority)) (rules_file_name_cmp libc)
    = Some files
    /\ fst (load_scripts_dirs fs authority) ≡ₚ files
    /\ StronglySorted path_before files
    /\ forall found,
         found ≡ₚ fst (load_scripts_dirs fs authority) ->
         g_list_sort found (rules_file_name_cmp libc) = Some files.
Proof.
  intros Hnd.
  pose proof (load_scripts_dirs_slash fs authority) as Hslash.
  destruct (g_list_sort_spec libc _ Hslash Hnd) as (files & Hsort & Hperm & Hsorted).
  exists files. repeat split; try assumption.
  intros found Hfound.
  destruct (g_list_sort_spec libc found) as (files' & Hsort' & Hperm' & Hsorted').
  - rewrite Hfound. exact Hslash.
  - rewrite Hfound. exact Hnd.
  - rewrite Hsort'. f_equal.
    apply (StronglySorted_unique_strong path_before); try assumption.
    + intros x1 x2 _ _ H12 H21. destruct (path_before_asym _ _ H12 H21).
    + rewrite <- Hperm', Hfound. exact Hperm.
Qed.

(** The three rule files of the samples. *)
Lemma rule_files_sorted_by_name_then_path_witness :
  exists files,
    g_list_sort (fst (load_scripts_dirs sample_fs usr_first))
      (rules_file_name_cmp sample_libc)
    = Some files
    /\ fst (load_scripts_dirs sample_fs usr_first) ≡ₚ files
    /\ StronglySorted path_before files
    /\ forall found,
         found ≡ₚ fst (load_scripts_dirs sample_fs usr_first) ->
         g_list_sort found (rules_file_name_cmp sample_libc) = Some files.
Proof.
  apply (rule_files_sorted_by_name_then_path sample_libc sample_fs usr_first).
  apply (bool_decide_unpack _). vm_compute. exact I.
Defined.
(** *** The states of a reload *)

(** C1 as stated fails.  With [/etc] before [/usr], both holding a rule file
    that parses, and a chain of one rule set from an earlier load, the reload
    returns, and the chain seen through the authority has, state after state
    of the reload, 1, 0, 0, 0, 1, 2, 2, 2 rule sets: it is empty from the first
    step of the reload on, and holds the first of the two new rule sets alone
    before the second is linked.  Some state of the reload shows neither the
    old chain nor the new one. *)
Lemma reload_scripts_exposes_partial_chain :
  map (fun s => length (policy (priv s)))
    (reload_scripts_trace sample_libc sample_header clean_fs etc_first)
  = [1; 0; 0; 0; 1; 2; 2; 2]%nat
  /\ (exists final,
        reload_scripts sample_libc sample_header clean_fs etc_first = Returns final
        /\ length (policy (priv final)) = 2%nat)
  /\ exists s,
       In s (reload_scripts_trace sample_libc sample_header clean_fs etc_first)
       /\ policy (priv s) <> policy (priv etc_first)
       /\ Returns (policy (priv s))
          <> (fun a => policy (priv a))
               <$> reload_scripts sample_libc sample_header clean_fs etc_first.
Proof.
  split; [vm_compute; reflexivity|]. split.
  - eexists. split; [vm_compute; reflexivity | reflexivity].
  - exists (set_policy etc_first []).
    split; [right; left; reflexivity|].
    split; [discriminate|].
    vm_compute. discriminate.
Qed.

(** C1, amended.  A reload of rule files that are found once each and all
    parse runs to its end, and the chain seen through the authority is, state
    after state: the old chain before the reload; the empty chain once the old
    one is dropped and after every directory of the first loop; after the n-th
    file of the second loop the first n rule sets of the new chain, built in
    place; the whole new chain after the closing log line and after the
    signal.  The whole new chain is there only once the last file is linked. *)
Theorem reload_scripts_builds_in_place (libc : Libc) (h : Header) (fs : FileSystem)
    (authority : PolkitBackendKeyfileAuthority) :
  NoDup (fst (load_scripts_dirs fs authority)) ->
  Forall (parses h fs) (fst (load_scripts_dirs fs authority)) ->
  exists sorted final,
    g_list_sort (fst (load_scripts_dirs fs authority)) (rules_file_name_cmp libc)
    = Some sorted
    /\ reload_scripts libc h fs authority = Returns final
    /\ List.last (reload_scripts_trace libc h fs authority) authority = final
    /\ policy (priv final) = parsed h fs sorted
    /\ length (parsed h fs sorted) = length sorted
    /\ map (fun s => policy (priv s)) (reload_scripts_trace libc h fs authority)
       = policy (priv authority) :: [] ::
         replicate (length (rules_dirs_list authority)) []
         ++ map (fun n => take n (parsed h fs sorted)) (seq 1 (length sorted))
         ++ [parsed h fs sorted; parsed h fs sorted]
    /\ forall n, (n < length sorted)%nat ->
                 take n (parsed h fs sorted) <> parsed h fs sorted.
Proof.
  intros Hnd Hall.
  pose proof (load_scripts_dirs_slash fs authority) as Hslash.
  destruct (g_list_sort_spec libc _ Hslash Hnd) as (sorted & Hsort & Hperm & _).
  assert (Hparse : Forall (parses h fs) sorted) by (rewrite <- Hperm; exact Hall).
  pose proof (parsed_length h fs sorted Hparse) as Hlen.
  set (cleared := set_policy authority []).
  assert (Hfound : fst (load_scripts_dirs fs cleared)
                   = fst (load_scripts_dirs fs authority)).
  { rewrite !load_scripts_dirs_discovered. reflexivity. }
  pose proof (load_scripts_dirs_keeps fs cleared) as [Hlisted _].
  pose proof (scan_left_dirs_chain fs (rules_dirs_list cleared) ([], cleared))
    as Hdirs.
  unfold reload_scripts, load_scripts, reload_scripts_trace.
  fold cleared.
  destruct (load_scripts_dirs fs cleared) as [files listed].
  simpl in Hfound, Hlisted. subst files. rewrite Hsort.
  set (st0 := {| ls_authority := listed; ls_last := false; ls_num_scripts := 0 |}).
  destruct (load_scripts_files_loop_parses h fs sorted st0 Hparse)
    as (st' & Hloop & Hchain & _).
  pose proof (load_scripts_files_trace_parses h fs sorted st0 Hparse) as Htrace.
  unfold load_scripts_files. fold st0. rewrite Hloop.
  assert (Hfinal : chain_of st' = parsed h fs sorted).
  { rewrite Hchain. unfold chain_of. simpl. rewrite Hlisted.
    destruct sorted; reflexivity. }
  exists sorted.
  exists (g_signal_emit_by_name
            (polkit_backend_authority_log (ls_authority st')
               (LogFinishedLoading (ls_num_scripts st')))
            "changed").
  split; [reflexivity|]. split; [reflexivity|]. split.
  { match goal with
    | |- List.last (?a :: ?b :: ?l ++ ?m ++ [?x; ?y]) _ = _ =>
        replace (a :: b :: l ++ m ++ [x; y]) with ((a :: b :: l ++ m ++ [x]) ++ [y])
          by (simpl; rewrite <- !app_assoc; reflexivity)
    end.
    apply last_last. }
  split; [exact Hfinal|]. split; [exact Hlen|]. split.
  - cbn [map]. f_equal. f_equal.
    rewrite !map_app, !map_map. f_equal; [exact Hdirs|].
    f_equal.
    + change (fun x : LoadState => policy (priv (ls_authority x))) with chain_of.
      rewrite Htrace. reflexivity.
    + simpl. unfold chain_of in Hfinal. rewrite Hfinal. reflexivity.
  - intros n Hn Heq. apply (f_equal (@length PolicyFile)) in Heq.
    rewrite length_take, Hlen in Heq. lia.
Qed.

(** The two directories of the samples, every file of which parses. *)
Lemma reload_scripts_builds_in_place_witness :
  exists sorted final,
    g_list_sort (fst (load_scripts_dirs clean_fs etc_first))
      (rules_file_name_cmp sample_libc)
    = Some sorted
    /\ reload_scripts sample_libc sample_header clean_fs etc_first = Returns final
    /\ List.last (reload_scripts_trace sample_libc sample_header clean_fs etc_first)
         etc_first
       = final
    /\ policy (priv final) = parsed sample_header clean_fs sorted
    /\ length (parsed sample_header clean_fs sorted) = length sorted
    /\ map (fun s => policy (priv s))
         (reload_scripts_trace sample_libc sample_header clean_fs etc_first)
       = policy (priv etc_first) :: [] ::
         replicate (length (rules_dirs_list etc_first)) []
         ++ map (fun n => take n (parsed sample_header clean_fs sorted))
              (seq 1 (length sorted))
         ++ [parsed sample_header clean_fs sorted;
             parsed sample_header clean_fs sorted]
    /\ forall n, (n < length sorted)%nat ->
                 take n (parsed sample_header clean_fs sorted)
                 <> parsed sample_header clean_fs sorted.
Proof.
  apply (reload_scripts_builds_in_place sample_libc sample_header clean_fs etc_first).
  - apply (bool_decide_unpack _). vm_compute. exact I.
  - apply (bool_decide_unpack _). vm_compute. exact I.
Defined.
(** *** The directory watcher *)





(** ** Further properties *)

(** *** The fields of a policy *)

(** X1.  A policy that loads carries the name of its section as [id], and
    each of its five counts is the length of the list next to it. *)
Theorem policy_load_id_and_counts (h : Header) (file : GKeyFile)
    (section_id : string) (p : Policy) :
  policy_load h file section_id = Returns (Some p) ->
  PolicyFile.id p = section_id /\ counts_match p.
Proof.
  rewrite policy_load_equation.
  destruct (section_loads h file section_id);
    [|destruct (section_crashes h file section_id); discriminate].
  intros [= <-]. unfold policy_of. split.
  - rewrite !(block_keeps PolicyFile.id) by reflexivity. reflexivity.
  - repeat (apply block_invariant;
            [intros q (H1 & H2 & H3 & H4 & H5); repeat split; assumption|]).
    repeat split.
Qed.

(** The section [Full] of the samples. *)
Lemma policy_load_id_and_counts_witness :
  PolicyFile.id (policy_of sample_header full_rule "Full") = "Full"
  /\ counts_match (policy_of sample_header full_rule "Full").
Proof.
  apply (policy_load_id_and_counts sample_header full_rule "Full").
  vm_compute. reflexivity.
Defined.

(** X2.  In a policy that loads, a list is NULL exactly when its key is
    not in the section (a key with an empty value gives the empty list), and
    a boolean is FALSE when its key is not there; a key that is there gives
    the value GLib decodes. *)
Theorem policy_load_fields (h : Header) (file : GKeyFile)
    (section_id : string) (p : Policy) :
  policy_load h file section_id = Returns (Some p) ->
  let field key :=
    if g_key_file_has_key file section_id key
    then Some (string_list_of file section_id key) else None in
  let flag key :=
    g_key_file_has_key file section_id key && boolean_of file section_id key in
  actions p = field "Actions"
  /\ action_contains p = field "ActionContains"
  /\ unix_groups p = field "InUnixGroups"
  /\ net_groups p = field "InNetGroups"
  /\ unix_names p = field "InUserNames"
  /\ require_active p = flag "SubjectActive"
  /\ require_local p = flag "SubjectLocal".
Proof.
  rewrite policy_load_equation.
  destruct (section_loads h file section_id);
    [|destruct (section_crashes h file section_id); discriminate].
  intros [= <-]. unfold policy_of. simpl.
  repeat split.
  - rewrite !(block_keeps actions) by reflexivity.
    rewrite (block_sets actions _ _ _ (Some (string_list_of file section_id "Actions")))
      by reflexivity. reflexivity.
  - rewrite !(block_keeps action_contains) by reflexivity.
    rewrite (block_sets action_contains _ _ _
               (Some (string_list_of file section_id "ActionContains")))
      by reflexivity.
    rewrite !(block_keeps action_contains) by reflexivity. reflexivity.
  - rewrite !(block_keeps unix_groups) by reflexivity.
    rewrite (block_sets unix_groups _ _ _
               (Some (string_list_of file section_id "InUnixGroups")))
      by reflexivity.
    rewrite !(block_keeps unix_groups) by reflexivity. reflexivity.
  - rewrite !(block_keeps net_groups) by reflexivity.
    rewrite (block_sets net_groups _ _ _
               (Some (string_list_of file section_id "InNetGroups")))
      by reflexivity.
    rewrite !(block_keeps net_groups) by reflexivity. reflexivity.
  - rewrite !(block_keeps unix_names) by reflexivity.
    rewrite (block_sets unix_names _ _ _
               (Some (string_list_of file section_id "InUserNames")))
      by reflexivity.
    rewrite !(block_keeps unix_names) by reflexivity. reflexivity.
  - rewrite !(block_keeps require_active) by reflexivity.
    rewrite (block_sets require_active _ _ _ (boolean_of file section_id "SubjectActive"))
      by reflexivity.
    rewrite !(block_keeps require_active) by reflexivity.
    destruct (g_key_file_has_key file section_id "SubjectActive"); reflexivity.
  - rewrite (block_sets require_local _ _ _ (boolean_of file section_id "SubjectLocal"))
      by reflexivity.
    rewrite !(block_keeps require_local) by reflexivity.
    destruct (g_key_file_has_key file section_id "SubjectLocal"); reflexivity.
Qed.

(** The section [Full] of the samples: [InNetGroups=] gives the empty list,
    not NULL. *)
Lemma policy_load_fields_witness :
  let p := policy_of sample_header full_rule "Full" in
  let field key :=
    if g_key_file_has_key full_rule "Full" key
    then Some (string_list_of full_rule "Full" key) else None in
  let flag key :=
    g_key_file_has_key full_rule "Full" key && boolean_of full_rule "Full" key in
  actions p = field "Actions"
  /\ action_contains p = field "ActionContains"
  /\ unix_groups p = field "InUnixGroups"
  /\ net_groups p = field "InNetGroups"
  /\ unix_names p = field "InUserNames"
  /\ require_active p = flag "SubjectActive"
  /\ require_local p = flag "SubjectLocal".
Proof.
  apply (policy_load_fields sample_header full_rule "Full").
  vm_compute. reflexivity.
Defined.

(** *** The constraint mask *)

Lemma block_ors (taken : bool) (f : Policy -> Policy) (p : Policy) (flag : Z) :
  (forall q, constraints (f q) = Z.lor (constraints q) flag) ->
  constraints (block taken f p)
  = Z.lor (constraints p) (if taken then flag else 0).
Proof.
  intros Hf. unfold block. destruct taken; [apply Hf|].
  rewrite Z.lor_0_r. reflexivity.
Qed.

Lemma policy_of_constraints (h : Header) (file : GKeyFile) (section_id : string) :
  constraints (policy_of h file section_id)
  = mask_of
      (combine (map (g_key_file_has_key file section_id) recognised_keys)
         (constraint_flags h))
      0.
Proof.
  unfold policy_of.
  repeat (erewrite block_ors; [|intros q; reflexivity]).
  reflexivity.
Qed.

Lemma mask_of_other (l : list (bool * Z)) (m f : Z) :
  Forall (fun bf => Z.land (snd bf) f = 0) l ->
  Z.land (mask_of l m) f = Z.land m f.
Proof.
  unfold mask_of. revert m. induction l as [|[b g] l IH]; intros m Hl;
    [reflexivity|].
  apply Forall_cons in Hl as [Hg Hl]. simpl in *.
  rewrite IH by assumption.
  rewrite Z.land_lor_distr_l.
  destruct b; [rewrite Hg|rewrite Z.land_0_l]; apply Z.lor_0_r.
Qed.

Lemma independent_flags_tail (f : Z) (flags : list Z) :
  independent_flags (f :: flags) = true ->
  f <> 0 /\ Forall (fun g => Z.land f g = 0) flags
  /\ independent_flags flags = true.
Proof.
  simpl. rewrite !andb_true_iff, negb_true_iff, Z.eqb_neq, forallb_forall.
  intros [[Hf Hall] Hrest]. repeat split; [assumption| |assumption].
  apply Forall_forall. intros g Hg. apply Z.eqb_eq, Hall, list_elem_of_In, Hg.
Qed.

(** Under independent flags the bit of a block is set in the mask exactly
    when the block is taken. *)
Lemma mask_of_bit (l : list (bool * Z)) (i : nat) (b : bool) (f m : Z) :
  independent_flags (map snd l) = true ->
  l !! i = Some (b, f) ->
  f <> 0
  /\ Z.land (mask_of l m) f = Z.lor (Z.land m f) (if b then f else 0).
Proof.
  revert i m. induction l as [|[b0 g0] l IH]; intros i m Hind Hi; [discriminate|].
  simpl in Hind. apply independent_flags_tail in Hind as (Hg0 & Hall & Hind).
  destruct i as [|i]; simpl in Hi.
  - injection Hi as -> ->. split; [assumption|].
    change (mask_of ((b, f) :: l) m) with (mask_of l (Z.lor m (if b then f else 0))).
    rewrite mask_of_other.
    + rewrite Z.land_lor_distr_l.
      destruct b; [rewrite Z.land_diag|rewrite Z.land_0_l]; reflexivity.
    + apply Forall_forall. intros [b' g'] Hin. simpl.
      rewrite Forall_forall in Hall. rewrite Z.land_comm. apply Hall.
      apply (list_elem_of_fmap_2 snd) in Hin. exact Hin.
  - destruct (IH i (Z.lor m (if b0 then g0 else 0)) Hind Hi) as [Hf Hland].
    split; [assumption|].
    change (mask_of ((b0, g0) :: l) m)
      with (mask_of l (Z.lor m (if b0 then g0 else 0))).
    rewrite Hland, Z.land_lor_distr_l.
    assert (Hg0f : Z.land g0 f = 0).
    { rewrite Forall_forall in Hall.
      assert (Hin : (b, f) ∈ l) by (apply list_elem_of_lookup; exists i; exact Hi).
      apply (list_elem_of_fmap_2 snd) in Hin. exact (Hall _ Hin). }
    destruct b0; [rewrite Hg0f|rewrite Z.land_0_l]; rewrite Z.lor_0_r; reflexivity.
Qed.

(** X3.  When no flag of the header is zero and no two flags share a bit,
    the constraint mask of a policy that loads tells which keys the section
    holds: the flag of a block is set in the mask exactly when the key of the
    block is in the section. *)
Theorem policy_load_mask (h : Header) (file : GKeyFile) (section_id : string)
    (p : Policy) (i : nat) (key : string) (flag : Z) :
  independent_flags (constraint_flags h) = true ->
  policy_load h file section_id = Returns (Some p) ->
  recognised_keys !! i = Some key ->
  constraint_flags h !! i = Some flag ->
  Z.land (constraints p) flag <> 0
  <-> g_key_file_has_key file section_id key = true.
Proof.
  intros Hind Hload Hkey Hflag.
  rewrite policy_load_equation in Hload.
  destruct (section_loads h file section_id);
    [|destruct (section_crashes h file section_id); discriminate].
  injection Hload as <-. rewrite policy_of_constraints.
  set (l := combine (map (g_key_file_has_key file section_id) recognised_keys)
              (constraint_flags h)).
  assert (Hl : l !! i = Some (g_key_file_has_key file section_id key, flag)).
  { unfold l. do 9 (destruct i as [|i]; [simpl in *; congruence|]).
    discriminate. }
  assert (Hsnd : map snd l = constraint_flags h) by reflexivity.
  destruct (mask_of_bit l i _ flag 0 ltac:(rewrite Hsnd; exact Hind) Hl)
    as [Hnz ->].
  rewrite Z.land_0_l, Z.lor_0_l.
  destruct (g_key_file_has_key file section_id key); split; congruence.
Qed.

(** The section [Full] of the samples and the key [InNetGroups], whose
    value is empty. *)
Lemma policy_load_mask_witness :
  Z.land (constraints (policy_of sample_header full_rule "Full"))
    (PF_CONSTRAINT_NET_GROUPS sample_header) <> 0
  <-> g_key_file_has_key full_rule "Full" "InNetGroups" = true.
Proof.
  apply (policy_load_mask sample_header full_rule "Full" _ 3%nat).
  - reflexivity.
  - vm_compute. reflexivity.
  - reflexivity.
  - reflexivity.
Defined.

(** *** Results *)

(** X4.  With seven distinct response values, [policy_string_to_result]
    gives the value of a keyword exactly for the texts that are that keyword
    up to the case of their letters, and [PK_RESPONSE_UNHANDLED] exactly for
    the texts that are no keyword. *)
Theorem policy_string_to_result_keywords (h : Header) (inp : string) :
  NoDup (response_codes h) ->
  (forall keyword code,
     In (keyword, code) (keyword_table h) ->
     policy_string_to_result h inp = code <-> g_ascii_strdown inp = keyword)
  /\ (policy_string_to_result h inp = PK_RESPONSE_UNHANDLED h
      <-> ~ In (g_ascii_strdown inp) result_keywords).
Proof.
  intros Hnd. unfold response_codes in Hnd.
  repeat match goal with
         | H : NoDup (_ :: _) |- _ =>
             let Hn := fresh "Hn" in
             apply NoDup_cons in H as [Hn H];
             rewrite ?not_elem_of_cons in Hn
         end.
  repeat match goal with
         | H : _ /\ _ |- _ => destruct H
         end.
  unfold policy_string_to_result, g_str_equal, keyword_table, result_keywords.
  repeat match goal with
         | |- context [String.eqb ?a ?b] =>
             destruct (String.eqb_spec a b)
         end;
    (split;
     [ intros keyword code Hin; simpl in Hin;
       repeat match goal with
              | H : _ \/ _ |- _ => destruct H
              | H : (_, _) = (_, _) |- _ => injection H as <- <-
              | H : False |- _ => destruct H
              end;
       split; intros Heq; congruence
     | split;
       [ intros Heq; simpl; intros Hin;
         repeat match goal with
                | H : _ \/ _ |- _ => destruct H
                | H : False |- _ => destruct H
                end; congruence
       | intros Hnot; try reflexivity; exfalso; apply Hnot; simpl;
         intuition congruence ] ]).
Qed.

(** The sample values and a keyword in capitals. *)
Lemma policy_string_to_result_keywords_witness :
  (forall keyword code,
     In (keyword, code) (keyword_table sample_header) ->
     policy_string_to_result sample_header "Auth_Admin_KEEP" = code
     <-> g_ascii_strdown "Auth_Admin_KEEP" = keyword)
  /\ (policy_string_to_result sample_header "Auth_Admin_KEEP"
      = PK_RESPONSE_UNHANDLED sample_header
      <-> ~ In (g_ascii_strdown "Auth_Admin_KEEP") result_keywords).
Proof.
  apply (policy_string_to_result_keywords sample_header "Auth_Admin_KEEP").
  apply (bool_decide_unpack _). vm_compute. exact I.
Defined.

(** X5.  The response of a policy that loads is never left unchecked: when
    the section has a [Result], the response is what
    [policy_string_to_result] gives for its value with the blanks around it
    removed, and it is not [PK_RESPONSE_UNHANDLED]; when the section has none,
    the response is the zero of [g_new0]. *)
Theorem policy_load_response (h : Header) (file : GKeyFile)
    (section_id : string) (p : Policy) :
  policy_load h file section_id = Returns (Some p) ->
  if g_key_file_has_key file section_id "Result"
  then exists result,
         g_key_file_get_string file section_id "Result" = GValue result
         /\ response p = policy_string_to_result h (g_strstrip result)
         /\ response p <> PK_RESPONSE_UNHANDLED h
  else response p = 0.
Proof.
  rewrite policy_load_equation.
  destruct (section_loads h file section_id) eqn:Hloads;
    [|destruct (section_crashes h file section_id); discriminate].
  intros [= <-].
  assert (Hresp : response (policy_of h file section_id)
                  = response_at_inverse h file section_id).
  { unfold policy_of, response_at_inverse.
    rewrite !(block_keeps response) by reflexivity.
    rewrite (block_sets response _ _ _ (result_of h file section_id "Result"))
      by reflexivity.
    rewrite !(block_keeps response) by reflexivity. reflexivity. }
  rewrite Hresp. unfold response_at_inverse.
  unfold section_loads in Hloads. rewrite !andb_true_iff in Hloads.
  destruct Hloads as [[[[[_ Hres] _] _] _] _].
  destruct (g_key_file_has_key file section_id "Result"); [|reflexivity].
  simpl in Hres. apply andb_true_iff in Hres as [Hdec Hnot].
  unfold result_of in *.
  destruct (g_key_file_get_string file section_id "Result") as [result|];
    [|discriminate].
  exists result. repeat split.
  apply Z.eqb_neq. apply negb_true_iff. exact Hnot.
Qed.

(** The section [Full] of the samples: [Result=  Auth_Admin_KEEP ]. *)
Lemma policy_load_response_witness :
  if g_key_file_has_key full_rule "Full" "Result"
  then exists result,
         g_key_file_get_string full_rule "Full" "Result" = GValue result
         /\ response (policy_of sample_header full_rule "Full")
            = policy_string_to_result sample_header (g_strstrip result)
         /\ response (policy_of sample_header full_rule "Full")
            <> PK_RESPONSE_UNHANDLED sample_header
  else response (policy_of sample_header full_rule "Full") = 0.
Proof.
  apply (policy_load_response sample_header full_rule "Full").
  vm_compute. reflexivity.
Defined.

(** *** What [policy_load] reads *)

Lemma has_key_lookup_key (file : GKeyFile) (section_id key : string) :
  g_key_file_has_key file section_id key
  = match lookup_key file section_id key with Some _ => true | None => false end.
Proof.
  unfold g_key_file_has_key, lookup_key.
  destruct (file !! section_id) as [g|]; reflexivity.
Qed.

(** Up to the code of the error, a getter answers from [lookup_key]. *)
Lemma get_lookup_key {A : Type} (decode : KeyValue -> option A)
    (file : GKeyFile) (section_id key : string) :
  match g_key_file_get decode file section_id key with
  | GValue a => Some a
  | GErrorSet _ => None
  end
  = lookup_key file section_id key ≫= decode.
Proof.
  unfold g_key_file_get, lookup_key.
  destruct (file !! section_id) as [g|]; simpl; [|reflexivity].
  destruct (g !! key) as [v|]; simpl; [|reflexivity].
  destruct (decode v); reflexivity.
Qed.

Lemma get_same_lookup_key {A : Type} (decode : KeyValue -> option A)
    (file1 file2 : GKeyFile) (section_id key : string) :
  lookup_key file1 section_id key = lookup_key file2 section_id key ->
  match g_key_file_get decode file1 section_id key with
  | GValue a => Some a
  | GErrorSet _ => None
  end
  = match g_key_file_get decode file2 section_id key with
    | GValue a => Some a
    | GErrorSet _ => None
    end.
Proof. intros H. rewrite !get_lookup_key, H. reflexivity. Qed.

(** X7.  [policy_load] reads nothing of a key file but whether the section
    is there and what it holds under the nine keys: two key files that agree
    on these give the same result, whatever other keys and other sections
    they hold. *)
Theorem policy_load_reads_nine_keys (h : Header) (file1 file2 : GKeyFile)
    (section_id : string) :
  g_key_file_has_group file1 section_id = g_key_file_has_group file2 section_id ->
  (forall key, In key recognised_keys ->
               lookup_key file1 section_id key = lookup_key file2 section_id key) ->
  policy_load h file1 section_id = policy_load h file2 section_id.
Proof.
  intros Hgroup Hkeys.
  assert (Hhas : forall key, In key recognised_keys ->
                   g_key_file_has_key file1 section_id key
                   = g_key_file_has_key file2 section_id key).
  { intros key Hin. rewrite !has_key_lookup_key, (Hkeys key Hin). reflexivity. }
  assert (Hlist : forall key, In key recognised_keys ->
                    string_list_of file1 section_id key
                    = string_list_of file2 section_id key
                    /\ decodes (g_key_file_get_string_list file1 section_id key)
                       = decodes (g_key_file_get_string_list file2 section_id key)).
  { intros key Hin. unfold string_list_of, g_key_file_get_string_list.
    pose proof (get_same_lookup_key as_string_list _ _ _ _ (Hkeys key Hin)) as H.
    destruct (g_key_file_get as_string_list file1 section_id key),
             (g_key_file_get as_string_list file2 section_id key);
      simpl; split; congruence. }
  assert (Hbool : forall key, In key recognised_keys ->
                    boolean_of file1 section_id key = boolean_of file2 section_id key
                    /\ decodes (g_key_file_get_boolean file1 section_id key)
                       = decodes (g_key_file_get_boolean file2 section_id key)).
  { intros key Hin. unfold boolean_of, g_key_file_get_boolean.
    pose proof (get_same_lookup_key as_boolean _ _ _ _ (Hkeys key Hin)) as H.
    destruct (g_key_file_get as_boolean file1 section_id key),
             (g_key_file_get as_boolean file2 section_id key);
      simpl; split; congruence. }
  assert (Hres : forall key, In key recognised_keys ->
                   result_of h file1 section_id key = result_of h file2 section_id key
                   /\ decodes (g_key_file_get_string file1 section_id key)
                      = decodes (g_key_file_get_string file2 section_id key)).
  { intros key Hin. unfold result_of, g_key_file_get_string.
    pose proof (get_same_lookup_key as_string _ _ _ _ (Hkeys key Hin)) as H.
    destruct (g_key_file_get as_string file1 section_id key),
             (g_key_file_get as_string file2 section_id key);
      simpl; split; congruence. }
  rewrite !policy_load_equation.
  unfold section_loads, section_crashes, policy_of, response_at_inverse.
  rewrite Hgroup.
  repeat match goal with
         | |- context [g_key_file_has_key file1 section_id ?k] =>
             rewrite (Hhas k) by (simpl; tauto)
         | |- context [string_list_of file1 section_id ?k] =>
             rewrite (proj1 (Hlist k ltac:(simpl; tauto)))
         | |- context [g_key_file_get_string_list file1 section_id ?k] =>
             rewrite (proj2 (Hlist k ltac:(simpl; tauto)))
         | |- context [boolean_of file1 section_id ?k] =>
             rewrite (proj1 (Hbool k ltac:(simpl; tauto)))
         | |- context [g_key_file_get_boolean file1 section_id ?k] =>
             rewrite (proj2 (Hbool k ltac:(simpl; tauto)))
         | |- context [result_of h file1 section_id ?k] =>
             rewrite (proj1 (Hres k ltac:(simpl; tauto)))
         | |- context [g_key_file_get_string file1 section_id ?k] =>
             rewrite (proj2 (Hres k ltac:(simpl; tauto)))
         end.
  reflexivity.
Qed.

(** The section [Full] in the sample file and in the file cut down to that
    section and its nine keys. *)
Lemma policy_load_reads_nine_keys_witness :
  policy_load sample_header full_rule "Full"
  = policy_load sample_header full_rule_trimmed "Full".
Proof.
  apply (policy_load_reads_nine_keys sample_header full_rule full_rule_trimmed "Full").
  - vm_compute. reflexivity.
  - intros key Hin. simpl in Hin.
    repeat match goal with
           | H : _ \/ _ |- _ => destruct H
           | H : False |- _ => destruct H
           end;
      subst key; vm_compute; reflexivity.
Defined.

(** *** Whole rule files *)

Lemma policy_file_load_rules_loop_result (h : Header) (keyfile : GKeyFile)
    (sections : list string) (last : bool) (target : list Policy) :
  match mapM (fun s => returned (policy_load h keyfile (g_strstrip s))) sections with
  | Some ps =>
      policy_file_load_rules_loop h keyfile sections last target
      = Returns (true, if last then target ++ ps
                       else match ps with [] => target | _ => ps end)
  | None => pass_fails (policy_file_load_rules_loop h keyfile sections last target)
  end.
Proof.
  destruct (mapM _ sections) as [ps|] eqn:Hm.
  - apply policy_file_load_rules_loop_links. exact Hm.
  - apply policy_file_load_rules_loop_fails. exact Hm.
Qed.

(** X8.  A rule file parses exactly when GLib loads it, its [Policy]
    section gives both lists, and every section either list names loads; the
    rule set then holds, for each list, the policies of the names in the
    order of the list.  Two empty lists give a rule set without rules. *)
Theorem policy_file_new_from_path_iff (h : Header) (fs : FileSystem)
    (path : string) (ret : PolicyFile) :
  policy_file_new_from_path h fs path = Returns (Some ret)
  <-> exists keyf rs ads,
        g_key_file_load_from_file fs path = Some keyf
        /\ g_key_file_get_string_list keyf POLICY_SECTION "Rules" = GValue rs
        /\ g_key_file_get_string_list keyf POLICY_SECTION "AdminRules" = GValue ads
        /\ mapM (fun s => returned (policy_load h keyf (g_strstrip s))) rs
           = Some (normal (rules ret))
        /\ mapM (fun s => returned (policy_load h keyf (g_strstrip s))) ads
           = Some (admin (rules ret)).
Proof.
  split.
  - unfold policy_file_new_from_path, policy_file_load_rules.
    destruct (g_key_file_load_from_file fs path) as [keyf|] eqn:Hload;
      [|discriminate].
    destruct (g_key_file_get_string_list keyf POLICY_SECTION "Rules") as [rs|]
      eqn:Hrs; [|discriminate].
    simpl.
    pose proof (policy_file_load_rules_loop_result h keyf rs false []) as Hn.
    destruct (mapM _ rs) as [ns|] eqn:Hns.
    + rewrite Hn. simpl.
      destruct (g_key_file_get_string_list keyf POLICY_SECTION "AdminRules")
        as [ads|] eqn:Hads; [|discriminate].
      pose proof (policy_file_load_rules_loop_result h keyf ads false []) as Ha.
      destruct (mapM _ ads) as [as_|] eqn:Has.
      * rewrite Ha. simpl. intros [= <-]. exists keyf, rs, ads. simpl.
        repeat split; try assumption.
        -- rewrite Hns. destruct ns; reflexivity.
        -- rewrite Has. destruct as_; reflexivity.
      * destruct Ha as [[l Hl]|Hl]; rewrite Hl; discriminate.
    + destruct Hn as [[l Hl]|Hl]; rewrite Hl; discriminate.
  - intros (keyf & rs & ads & Hload & Hrs & Hads & Hns & Has).
    destruct ret as [[ns as_]]. simpl in *.
    apply policy_file_new_from_path_links with (keyf := keyf) (rs := rs) (ads := ads);
      assumption.
Qed.

Lemma policy_load_id (h : Header) (file : GKeyFile) (section_id : string)
    (p : Policy) :
  policy_load h file section_id = Returns (Some p) -> PolicyFile.id p = section_id.
Proof.
  rewrite policy_load_equation.
  destruct (section_loads h file section_id);
    [|destruct (section_crashes h file section_id); discriminate].
  intros [= <-]. unfold policy_of.
  rewrite !(block_keeps PolicyFile.id) by reflexivity. reflexivity.
Qed.

Lemma mapM_policy_load_ids (h : Header) (keyf : GKeyFile)
    (sections : list string) (ps : list Policy) :
  mapM (fun s => returned (policy_load h keyf (g_strstrip s))) sections = Some ps ->
  map PolicyFile.id ps = map g_strstrip sections.
Proof.
  revert ps. induction sections as [|s sections IH]; intros ps Hm; simpl in Hm.
  - injection Hm as <-. reflexivity.
  - destruct (policy_load h keyf (g_strstrip s)) as [[p|]| |] eqn:Hp;
      try discriminate.
    simpl in Hm. destruct (mapM _ sections) as [ps'|]; [|discriminate].
    injection Hm as <-. simpl. f_equal.
    + apply policy_load_id in Hp. exact Hp.
    + apply IH. reflexivity.
Qed.

(** X9.  The rule set of a file that parses has one rule for each name of
    [Rules] and one admin rule for each name of [AdminRules], in the order of
    the two lists; the [id] of a rule is its name with the blanks around it
    removed. *)
Theorem policy_file_rules_follow_lists (h : Header) (fs : FileSystem)
    (path : string) (ret : PolicyFile) (keyf : GKeyFile) :
  g_key_file_load_from_file fs path = Some keyf ->
  policy_file_new_from_path h fs path = Returns (Some ret) ->
  map PolicyFile.id (normal (rules ret))
  = map g_strstrip (string_list_of keyf POLICY_SECTION "Rules")
  /\ map PolicyFile.id (admin (rules ret))
     = map g_strstrip (string_list_of keyf POLICY_SECTION "AdminRules").
Proof.
  intros Hload Hret.
  unfold policy_file_new_from_path, policy_file_load_rules in Hret.
  rewrite Hload in Hret. unfold string_list_of.
  destruct (g_key_file_get_string_list keyf POLICY_SECTION "Rules") as [rs|];
    [|discriminate].
  simpl in Hret.
  pose proof (policy_file_load_rules_loop_result h keyf rs false []) as Hn.
  destruct (mapM _ rs) as [ns|] eqn:Hns.
  - rewrite Hn in Hret. simpl in Hret.
    destruct (g_key_file_get_string_list keyf POLICY_SECTION "AdminRules")
      as [ads|]; [|discriminate].
    pose proof (policy_file_load_rules_loop_result h keyf ads false []) as Ha.
    destruct (mapM _ ads) as [as_|] eqn:Has.
    + rewrite Ha in Hret. simpl in Hret. injection Hret as <-. simpl.
      apply mapM_policy_load_ids in Hns, Has.
      split; [destruct ns | destruct as_]; assumption.
    + destruct Ha as [[l Hl]|Hl]; rewrite Hl in Hret; discriminate.
  - destruct Hn as [[l Hl]|Hl]; rewrite Hl in Hret; discriminate.
Qed.

(** The file [full.keyrules] of the samples: [Rules= Full ;Plain]. *)
Lemma policy_file_rules_follow_lists_witness :
  map PolicyFile.id
    (normal (rules {| rules := {| normal := [policy_of sample_header full_rule "Full";
                                             policy_of sample_header full_rule "Plain"];
                                  admin := [] |} |}))
  = map g_strstrip (string_list_of full_rule POLICY_SECTION "Rules")
  /\ map PolicyFile.id
       (admin (rules {| rules := {| normal := [policy_of sample_header full_rule "Full";
                                               policy_of sample_header full_rule "Plain"];
                                    admin := [] |} |}))
     = map g_strstrip (string_list_of full_rule POLICY_SECTION "AdminRules").
Proof.
  apply (policy_file_rules_follow_lists sample_header full_rule_fs
           "/etc/polkit-1/rules.d/full.keyrules").
  - reflexivity.
  - vm_compute. reflexivity.
Defined.

(** *** Values that do not decode *)


Lemma value_has_key {A : Type} (decode : KeyValue -> option A)
    (file : GKeyFile) (section_id key : string) (v : A) :
  g_key_file_get decode file section_id key = GValue v ->
  g_key_file_has_key file section_id key = true.
Proof.
  unfold g_key_file_get, g_key_file_has_key.
  destruct (file !! section_id) as [g|]; [|discriminate].
  destruct (g !! key); [reflexivity | discriminate].
Qed.

Lemma has_key_has_group (file : GKeyFile) (section_id key : string) :
  g_key_file_has_key file section_id key = true ->
  g_key_file_has_group file section_id = true.
Proof.
  unfold g_key_file_has_key, g_key_file_has_group.
  destruct (file !! section_id); [reflexivity | discriminate].
Qed.

Lemma decodes_value {A : Type} (r : gresult A) :
  decodes r = true <-> exists v, r = GValue v.
Proof.
  destruct r as [v|e]; simpl; split.
  - intros _. exists v. reflexivity.
  - reflexivity.
  - discriminate.
  - intros [v Hv]. discriminate.
Qed.

(** A section that loads does not end the process, and the process ends
    only in a section that is there. *)
Lemma section_crashes_not_loads (h : Header) (file : GKeyFile) (section_id : string) :
  section_crashes h file section_id = true ->
  section_loads h file section_id = false.
Proof.
  unfold section_crashes, section_loads.
  destruct (g_key_file_has_group file section_id && _ && _ && _ && _);
    [|discriminate].
  destruct (g_key_file_has_key file section_id "Result"),
           (decodes (g_key_file_get_string file section_id "Result")),
           (result_of h file section_id "Result" =? PK_RESPONSE_UNHANDLED h),
           (g_key_file_has_key file section_id "ResultInverse"),
           (decodes (g_key_file_get_string file section_id "ResultInverse")),
           (response_at_inverse h file section_id =? PK_RESPONSE_UNHANDLED h);
    simpl; try discriminate; reflexivity.
Qed.



(** *** Where the process ends in a rule section *)

(** X21.  The process ends in [policy_load] exactly when the section is
    there, each of the four lists before [Result] is absent or decodes, and
    the first jump to [handle_err] is that of a keyword test: [Result] holds a
    text that is no keyword; or [Result] is absent or holds a keyword,
    [ResultInverse] holds a text, and the response held at that point is
    [PK_RESPONSE_UNHANDLED].  [policy_load] fails no assertion. *)
Theorem policy_load_crashes_iff (h : Header) (file : GKeyFile) (section_id : string) :
  policy_load h file section_id <> AssertionFailed
  /\ (policy_load h file section_id = NullDereference
      <-> g_key_file_has_group file section_id = true
          /\ (forall key,
                In key ["Actions"; "ActionContains"; "InUnixGroups"; "InNetGroups"] ->
                g_key_file_has_key file section_id key = true ->
                exists l, g_key_file_get_string_list file section_id key = GValue l)
          /\ ((exists result,
                 g_key_file_get_string file section_id "Result" = GValue result
                 /\ policy_string_to_result h (g_strstrip result)
                    = PK_RESPONSE_UNHANDLED h)
              \/ ((g_key_file_has_key file section_id "Result" = false
                   \/ exists result,
                        g_key_file_get_string file section_id "Result" = GValue result
                        /\ policy_string_to_result h (g_strstrip result)
                           <> PK_RESPONSE_UNHANDLED h)
                  /\ exists inverse,
                       g_key_file_get_string file section_id "ResultInverse"
                       = GValue inverse
                       /\ response_at_inverse h file section_id
                          = PK_RESPONSE_UNHANDLED h))).
Proof.
  split.
  { rewrite policy_load_equation.
    destruct (section_loads h file section_id); [discriminate|].
    destruct (section_crashes h file section_id); discriminate. }
  assert (Hcrash : policy_load h file section_id = NullDereference
                   <-> section_crashes h file section_id = true).
  { rewrite policy_load_equation.
    pose proof (section_crashes_not_loads h file section_id) as Hnot.
    destruct (section_crashes h file section_id).
    - rewrite (Hnot eq_refl). split; reflexivity.
    - destruct (section_loads h file section_id); split; discriminate. }
  rewrite Hcrash. clear Hcrash. unfold section_crashes, result_of.
  repeat first [rewrite andb_true_iff | rewrite orb_true_iff
               | rewrite negb_true_iff].
  rewrite !Z.eqb_eq, !decodes_value.
  split.
  - intros [[[[[Hg H1] H2] H3] H4] Hjump].
    split; [exact Hg|]. split.
    + intros key Hin Hkey.
      destruct Hin as [<-|[<-|[<-|[<-|[]]]]];
        [destruct H1 as [H|H] | destruct H2 as [H|H]
         | destruct H3 as [H|H] | destruct H4 as [H|H]];
        first [congruence | exact H].
    + destruct Hjump
        as [[[_ [result Hres]] Hun]|[[[[Habs|[[result Hres] Hok]] Hk] Hi] Hun]].
      * left. exists result. rewrite Hres in Hun. split; [exact Hres | exact Hun].
      * right. split; [left; exact Habs|].
        destruct Hi as [inverse Hi]. exists inverse. split; assumption.
      * right. split.
        -- right. exists result. rewrite Hres in Hok.
           split; [exact Hres | apply Z.eqb_neq; exact Hok].
        -- destruct Hi as [inverse Hi]. exists inverse. split; assumption.
  - intros (Hg & Hlists & Hjump).
    assert (Hlist : forall key,
               In key ["Actions"; "ActionContains"; "InUnixGroups"; "InNetGroups"] ->
               g_key_file_has_key file section_id key = false
               \/ exists l, g_key_file_get_string_list file section_id key = GValue l).
    { intros key Hin.
      destruct (g_key_file_has_key file section_id key) eqn:Hkey;
        [right; apply Hlists; assumption | left; reflexivity]. }
    split.
    + repeat split; try exact Hg; apply Hlist; simpl; tauto.
    + destruct Hjump as [(result & Hres & Hun)|[Hpass (inverse & Hi & Hun)]].
      * left. split; [split|].
        -- apply (value_has_key _ _ _ _ _ Hres).
        -- exists result. exact Hres.
        -- rewrite Hres. exact Hun.
      * right. split; [split; [split|]|].
        -- destruct Hpass as [Habs|(result & Hres & Hok)]; [left; exact Habs|].
           right. split; [exists result; exact Hres|].
           rewrite Hres. apply Z.eqb_neq. exact Hok.
        -- apply (value_has_key _ _ _ _ _ Hi).
        -- exists inverse. exact Hi.
        -- exact Hun.
Qed.

(** X22.  The inverse response of a policy that loads is the value of its
    text, whatever the text: the keyword test that follows the assignment
    reads [response], so that an inverse response of
    [PK_RESPONSE_UNHANDLED] passes when the response is a keyword.  Without
    the key the inverse response is the zero of [g_new0]. *)
Theorem policy_load_response_inverse (h : Header) (file : GKeyFile)
    (section_id : string) (p : Policy) :
  policy_load h file section_id = Returns (Some p) ->
  if g_key_file_has_key file section_id "ResultInverse"
  then exists inverse,
         g_key_file_get_string file section_id "ResultInverse" = GValue inverse
         /\ response_inverse p = policy_string_to_result h (g_strstrip inverse)
         /\ response p <> PK_RESPONSE_UNHANDLED h
  else response_inverse p = 0.
Proof.
  rewrite policy_load_equation.
  destruct (section_loads h file section_id) eqn:Hloads;
    [|destruct (section_crashes h file section_id); discriminate].
  intros [= <-].
  assert (Hresp : response (policy_of h file section_id)
                  = response_at_inverse h file section_id).
  { unfold policy_of, response_at_inverse.
    rewrite !(block_keeps response) by reflexivity.
    rewrite (block_sets response _ _ _ (result_of h file section_id "Result"))
      by reflexivity.
    rewrite !(block_keeps response) by reflexivity. reflexivity. }
  assert (Hinv : response_inverse (policy_of h file section_id)
                 = if g_key_file_has_key file section_id "ResultInverse"
                   then result_of h file section_id "ResultInverse" else 0).
  { unfold policy_of.
    rewrite !(block_keeps response_inverse) by reflexivity.
    rewrite (block_sets response_inverse _ _ _
               (result_of h file section_id "ResultInverse")) by reflexivity.
    rewrite !(block_keeps response_inverse) by reflexivity. reflexivity. }
  rewrite Hresp, Hinv.
  unfold section_loads in Hloads. rewrite !andb_true_iff in Hloads.
  destruct Hloads as [[[[_ Hres] _] _] _].
  destruct (g_key_file_has_key file section_id "ResultInverse"); [|reflexivity].
  simpl in Hres. apply andb_true_iff in Hres as [Hdec Hnot].
  unfold result_of.
  destruct (g_key_file_get_string file section_id "ResultInverse") as [inverse|];
    [|discriminate].
  exists inverse. repeat split.
  apply Z.eqb_neq. apply negb_true_iff. exact Hnot.
Qed.

(** The rule [R1] of [bad_inverse]: [Result=yes], [ResultInverse=bogus]. *)
Lemma policy_load_response_inverse_witness :
  if g_key_file_has_key bad_inverse "R1" "ResultInverse"
  then exists inverse,
         g_key_file_get_string bad_inverse "R1" "ResultInverse" = GValue inverse
         /\ response_inverse (accepted_policy sample_header)
            = policy_string_to_result sample_header (g_strstrip inverse)
         /\ response (accepted_policy sample_header)
            <> PK_RESPONSE_UNHANDLED sample_header
  else response_inverse (accepted_policy sample_header) = 0.
Proof.
  apply (policy_load_response_inverse sample_header bad_inverse "R1").
  vm_compute. reflexivity.
Defined.
(** *** What the first loop finds *)

Lemma prepend_rule_files_elem (dir_name : string) (names files : list string)
    (x : string) :
  x ∈ prepend_rule_files dir_name names files
  <-> x ∈ files
      \/ exists name,
           name ∈ names /\ ends_with name ".keyrules"
           /\ x = dir_name +:+ "/" +:+ name.
Proof.
  unfold prepend_rule_files. revert files.
  induction names as [|n names IH]; intros files; simpl.
  - split; [left; assumption|].
    intros [H|(name & Hin & _)]; [assumption|].
    apply elem_of_nil in Hin. destruct Hin.
  - rewrite IH. destruct (g_str_has_suffix n ".keyrules") eqn:Hsuffix.
    + apply g_str_has_suffix_spec in Hsuffix. rewrite elem_of_cons. split.
      * intros [[->|H]|(name & Hin & Hs & ->)].
        -- right. exists n. split; [left|]. split; [exact Hsuffix|reflexivity].
        -- left. exact H.
        -- right. exists name. split; [right; exact Hin|].
           split; [exact Hs|reflexivity].
      * intros [H|(name & Hin & Hs & ->)]; [left; right; exact H|].
        apply elem_of_cons in Hin as [->|Hin].
        -- left. left. reflexivity.
        -- right. exists name. split; [exact Hin|]. split; [exact Hs|reflexivity].
    + split.
      * intros [H|(name & Hin & Hs & ->)]; [left; exact H|].
        right. exists name. split; [right; exact Hin|].
        split; [exact Hs|reflexivity].
      * intros [H|(name & Hin & Hs & ->)]; [left; exact H|].
        apply elem_of_cons in Hin as [->|Hin].
        -- apply g_str_has_suffix_spec in Hs. congruence.
        -- right. exists name. split; [exact Hin|]. split; [exact Hs|reflexivity].
Qed.

Lemma discovered_elem (fs : FileSystem) (dirs files : list string) (x : string) :
  x ∈ discovered fs dirs files
  <-> x ∈ files
      \/ exists dir_name names name,
           dir_name ∈ dirs /\ g_dir_open fs dir_name = Some names
           /\ name ∈ names /\ ends_with name ".keyrules"
           /\ x = dir_name +:+ "/" +:+ name.
Proof.
  unfold discovered. revert files.
  induction dirs as [|d dirs IH]; intros files; simpl.
  - split; [left; assumption|].
    intros [H|(dn & ns & n & Hin & _)]; [assumption|].
    apply elem_of_nil in Hin. destruct Hin.
  - rewrite IH. split.
    + intros [H|(dn & ns & n & Hin & Hopen & Hn & Hs & ->)].
      * destruct (g_dir_open fs d) as [names|] eqn:Hopen; [|left; exact H].
        apply prepend_rule_files_elem in H as [H|(n & Hn & Hs & ->)];
          [left; exact H|].
        right. exists d, names, n. split; [left|]. repeat split; assumption.
      * right. exists dn, ns, n. split; [right; exact Hin|].
        repeat split; assumption.
    + intros [H|(dn & ns & n & Hin & Hopen & Hn & Hs & ->)].
      * left. destruct (g_dir_open fs d); [|exact H].
        apply prepend_rule_files_elem. left. exact H.
      * apply elem_of_cons in Hin as [->|Hin].
        -- left. rewrite Hopen. apply prepend_rule_files_elem.
           right. exists n. repeat split; assumption.
        -- right. exists dn, ns, n. repeat split; assumption.
Qed.

(** X13.  The first loop of [load_scripts] finds exactly the entries with
    the suffix [.keyrules] of the configured directories that open, each as
    directory, [/], name.  A directory that does not open adds no file and
    hides none of another directory; an entry without the suffix is left
    out; a hidden name with the suffix is taken. *)
Theorem load_scripts_dirs_finds (fs : FileSystem)
    (authority : PolkitBackendKeyfileAuthority) (path : string) :
  path ∈ fst (load_scripts_dirs fs authority)
  <-> exists dir_name names name,
        dir_name ∈ rules_dirs_list authority
        /\ g_dir_open fs dir_name = Some names
        /\ name ∈ names /\ ends_with name ".keyrules"
        /\ path = dir_name +:+ "/" +:+ name.
Proof.
  rewrite load_scripts_dirs_discovered, discovered_elem. split; [|right; assumption].
  intros [H|H]; [|exact H]. apply elem_of_nil in H. destruct H.
Qed.

(** X14.  The first loop logs one line for every configured directory, in
    the configured order, and after it one error line for a directory that
    does not open; it logs nothing else and leaves the chain, the directories
    and the signals alone. *)
Theorem load_scripts_dirs_logs (fs : FileSystem)
    (authority : PolkitBackendKeyfileAuthority) :
  logged (snd (load_scripts_dirs fs authority))
  = logged authority ++ directory_log fs (rules_dirs_list authority)
  /\ priv (snd (load_scripts_dirs fs authority)) = priv authority
  /\ emitted (snd (load_scripts_dirs fs authority)) = emitted authority.
Proof.
  unfold load_scripts_dirs.
  destruct (load_scripts_dirs_fold fs (rules_dirs_list authority) ([], authority))
    as [_ ->].
  split; [reflexivity|].
  apply (load_scripts_dirs_fold_keeps fs _ ([], authority)).
Qed.

(** *** The comparison of rule files *)

(** What an answer of the comparison says about its two paths. *)
Lemma rules_file_name_cmp_sign (libc : Libc) (a b : string) (ret : Z) :
  rules_file_name_cmp libc a b = Some ret ->
  has_slash a /\ has_slash b /\ a <> b /\ ret <> 0
  /\ (ret < 0 -> path_before a b) /\ (0 < ret -> path_before b a).
Proof.
  unfold rules_file_name_cmp, has_slash, path_before, basename, g_strcmp0, strcmp.
  destruct (strrchr a "/") as [ra|] eqn:Ha; [|discriminate].
  destruct (strrchr b "/") as [rb|] eqn:Hb; [|discriminate]. simpl.
  destruct (String.compare (str_plus_1 ra) (str_plus_1 rb)) eqn:Hbase; simpl.
  - apply String.compare_eq_iff in Hbase.
    destruct (String.compare a b) eqn:Hfull; simpl; [discriminate| |];
      intros [= <-]; (split; [discriminate|]); (split; [discriminate|]);
      (split; [intros ->; rewrite string_compare_refl in Hfull; discriminate|]);
      (split; [discriminate|]); split; intros Hsign; try lia.
    + right. split; [assumption | reflexivity].
    + right. split; [congruence|]. apply string_compare_lt_gt. exact Hfull.
  - intros [= <-]. split; [discriminate|]. split; [discriminate|].
    split.
    { intros ->. rewrite Ha in Hb. injection Hb as ->.
      rewrite string_compare_refl in Hbase. discriminate. }
    split; [discriminate|]. split; intros Hsign; [|lia].
    left. reflexivity.
  - intros [= <-]. split; [discriminate|]. split; [discriminate|].
    split.
    { intros ->. rewrite Ha in Hb. injection Hb as ->.
      rewrite string_compare_refl in Hbase. discriminate. }
    split; [discriminate|]. split; intros Hsign; [lia|].
    left. apply string_compare_lt_gt. exact Hbase.
Qed.

(** X10.  The comparison of two paths fails an assertion exactly when one
    of them holds no [/] or the two are the same path.  Otherwise its answer
    is not zero, it is negative exactly when the first path comes before the
    second (by file name, then by path), and the answer for the two paths
    exchanged has the opposite sign.  How large the answer is depends on the
    C library. *)
Theorem rules_file_name_cmp_answers (libc : Libc) (a b : string) :
  (rules_file_name_cmp libc a b = None
   <-> ~ has_slash a \/ ~ has_slash b \/ a = b)
  /\ (forall ret,
        rules_file_name_cmp libc a b = Some ret ->
        ret <> 0
        /\ (ret < 0 <-> path_before a b)
        /\ exists ret',
             rules_file_name_cmp libc b a = Some ret' /\ (ret < 0 <-> 0 < ret')).
Proof.
  split.
  - split.
    + intros Hnone.
      destruct (decide (a = b)) as [Heq|Hne]; [right; right; exact Heq|].
      destruct (strrchr a "/") as [ra|] eqn:Ha;
        [|left; unfold has_slash; rewrite Ha; tauto].
      destruct (strrchr b "/") as [rb|] eqn:Hb;
        [|right; left; unfold has_slash; rewrite Hb; tauto].
      destruct (rules_file_name_cmp_spec libc a b) as (ret & Hret & _);
        [unfold has_slash; rewrite Ha; discriminate
        |unfold has_slash; rewrite Hb; discriminate
        |exact Hne|congruence].
    + intros [Ha|[Hb| ->]].
      * unfold rules_file_name_cmp, has_slash in *.
        destruct (strrchr a "/"); [exfalso; apply Ha; discriminate | reflexivity].
      * unfold rules_file_name_cmp, has_slash in *.
        destruct (strrchr a "/"); [|reflexivity]. simpl.
        destruct (strrchr b "/"); [exfalso; apply Hb; discriminate | reflexivity].
      * apply rules_file_name_cmp_same.
  - intros ret Hret.
    destruct (rules_file_name_cmp_sign libc a b ret Hret)
      as (Ha & Hb & Hne & Hnz & Hneg & Hpos).
    destruct (rules_file_name_cmp_spec libc b a Hb Ha) as (ret' & Hret' & _);
      [congruence|].
    destruct (rules_file_name_cmp_sign libc b a ret' Hret')
      as (_ & _ & _ & Hnz' & Hneg' & Hpos').
    split; [exact Hnz|]. split.
    + split; [exact Hneg|]. intros Hab.
      destruct (Z.lt_trichotomy ret 0) as [H|[H|H]]; [exact H | contradiction |].
      destruct (path_before_asym a b Hab (Hpos H)).
    + exists ret'. split; [exact Hret'|]. split.
      * intros Hlt.
        destruct (Z.lt_trichotomy ret' 0) as [H|[H|H]]; [|contradiction | exact H].
        destruct (path_before_asym a b (Hneg Hlt) (Hneg' H)).
      * intros Hgt.
        destruct (Z.lt_trichotomy ret 0) as [H|[H|H]]; [exact H | contradiction |].
        destruct (path_before_asym a b (Hpos' Hgt) (Hpos H)).
Qed.

Lemma strrchr_path (dir_name name : string) :
  plain_name name ->
  strrchr (dir_name +:+ "/" +:+ name) "/" = Some ("/" +:+ name).
Proof.
  unfold plain_name. intros Hname. induction dir_name as [|c d IH].
  - rewrite append_empty, append_cons, append_empty. simpl.
    rewrite Hname. reflexivity.
  - rewrite append_cons. simpl. rewrite IH. reflexivity.
Qed.

(** X11.  Rule files of different names are ordered by their names alone,
    whatever the directories they are in: the directories are compared only
    between files of the same name. *)
Theorem rules_file_name_cmp_by_name (libc : Libc) (dir1 dir2 name1 name2 : string) :
  plain_name name1 -> plain_name name2 -> name1 <> name2 ->
  rules_file_name_cmp libc (dir1 +:+ "/" +:+ name1) (dir2 +:+ "/" +:+ name2)
  = Some (g_strcmp0 libc name1 name2).
Proof.
  intros H1 H2 Hne. unfold rules_file_name_cmp.
  rewrite (strrchr_path dir1 name1 H1), (strrchr_path dir2 name2 H2). simpl.
  rewrite !append_cons, !append_empty. simpl.
  unfold g_strcmp0, strcmp.
  destruct (String.compare name1 name2) eqn:Hcmp; simpl; try reflexivity.
  apply String.compare_eq_iff in Hcmp. contradiction.
Qed.

(** [20-later.keyrules] of [/etc] after [10-first.keyrules] of [/usr]. *)
Lemma rules_file_name_cmp_by_name_witness :
  rules_file_name_cmp sample_libc (etc_dir +:+ "/" +:+ "20-later.keyrules")
    (usr_dir +:+ "/" +:+ "10-first.keyrules")
  = Some (g_strcmp0 sample_libc "20-later.keyrules" "10-first.keyrules").
Proof.
  apply (rules_file_name_cmp_by_name sample_libc etc_dir usr_dir).
  - reflexivity.
  - reflexivity.
  - discriminate.
Defined.

(** *** How the load ends *)

(** X12.  [load_scripts] ends in one of three ways, told apart by the rule
    files the first loop finds.  A path found twice, as when a directory is
    listed twice in the configuration, makes the sort compare the path with
    itself, and the assertion that two paths differ fails.  With every path
    found once, a file that does not parse ends the process at the log call
    of the second loop.  The load returns exactly when every path is found
    once and every file parses. *)
Theorem load_scripts_returns_iff (libc : Libc) (h : Header) (fs : FileSystem)
    (authority : PolkitBackendKeyfileAuthority) :
  (load_scripts libc h fs authority = AssertionFailed
   <-> ~ NoDup (fst (load_scripts_dirs fs authority)))
  /\ (load_scripts libc h fs authority = NullDereference
      <-> NoDup (fst (load_scripts_dirs fs authority))
          /\ ~ Forall (parses h fs) (fst (load_scripts_dirs fs authority)))
  /\ ((exists after, load_scripts libc h fs authority = Returns after)
      <-> NoDup (fst (load_scripts_dirs fs authority))
          /\ Forall (parses h fs) (fst (load_scripts_dirs fs authority))).
Proof.
  rewrite load_scripts_outcome, load_scripts_dirs_discovered.
  pose proof (discovered_slash fs (rules_dirs_list authority)) as Hslash.
  destruct (decide (NoDup (discovered fs (rules_dirs_list authority) [])))
    as [Hnd|Hnd].
  - destruct (g_list_sort_spec libc _ Hslash Hnd) as (sorted & -> & Hperm & _).
    destruct (bool_decide_reflect (Forall (parses h fs) sorted)) as [Hall|Hnot].
    + rewrite <- Hperm in Hall. split; [|split].
      * split; [discriminate | contradiction].
      * split; [discriminate | intros [_ Hnot]; contradiction].
      * split; [intros _; split; assumption | intros _; eexists; reflexivity].
    + rewrite <- Hperm in Hnot. split; [|split].
      * split; [discriminate | contradiction].
      * split; [intros _; split; assumption | reflexivity].
      * split; [intros [after Hafter]; discriminate | intros [_ Hall]; contradiction].
  - rewrite (g_list_sort_twice libc _ Hslash Hnd). split; [|split].
    + split; [intros _; exact Hnd | reflexivity].
    + split; [discriminate | intros [Hyes _]; contradiction].
    + split; [intros [after Hafter]; discriminate | intros [Hyes _]; contradiction].
Qed.
(** X15.  The loader and the watcher do not agree on hidden names: a name
    with the rule suffix that starts with [.] or [#] is loaded from every
    configured directory that lists it, yet no event about it makes the
    watcher reload. *)
Theorem hidden_rule_file_loaded_not_watched (libc : Libc) (h : Header)
    (fs : FileSystem)
    (authority : PolkitBackendKeyfileAuthority) (dir_name name : string)
    (names : list string) (event_type : GFileMonitorEvent) :
  starts_with name "." \/ starts_with name "#" ->
  ends_with name ".keyrules" ->
  dir_name ∈ rules_dirs_list authority ->
  g_dir_open fs dir_name = Some names ->
  name ∈ names ->
  dir_name +:+ "/" +:+ name ∈ fst (load_scripts_dirs fs authority)
  /\ on_dir_monitor_changed libc h fs authority
       (Some {| g_file_get_basename := name |}) event_type
     = Returns authority.
Proof.
  intros Hhidden Hsuffix Hdir Hopen Hname. split.
  - rewrite load_scripts_dirs_discovered.
    apply discovered_elem. right. exists dir_name, names, name.
    repeat split; assumption.
  - unfold on_dir_monitor_changed. simpl.
    destruct Hhidden as [H|H]; apply g_str_has_prefix_spec in H; rewrite H.
    + reflexivity.
    + destruct (g_str_has_prefix name "."); reflexivity.
Qed.

(** The entry [.swap.keyrules] of [/etc/polkit-1/rules.d]. *)
Lemma hidden_rule_file_loaded_not_watched_witness :
  etc_dir +:+ "/" +:+ ".swap.keyrules" ∈ fst (load_scripts_dirs hidden_fs etc_first)
  /\ on_dir_monitor_changed sample_libc sample_header hidden_fs etc_first
       (Some {| g_file_get_basename := ".swap.keyrules" |})
       G_FILE_MONITOR_EVENT_CREATED
     = Returns etc_first.
Proof.
  apply (hidden_rule_file_loaded_not_watched sample_libc sample_header hidden_fs
           etc_first
           etc_dir ".swap.keyrules" [".swap.keyrules"; "10-rules.keyrules"]).
  - left. exists "swap.keyrules". reflexivity.
  - exists ".swap". reflexivity.
  - left.
  - reflexivity.
  - left.
Defined.

(** *** A reload as a whole *)

(** X16.  What a reload does when every rule file is found once and
    parses: it returns; the directories stay as configured; the chain is the
    rule sets of all the files, in the sorted order, whatever the chain was
    before; the log grows by the lines of the directories and the closing
    line with the number of files; one signal [changed] is emitted. *)
Theorem reload_scripts_effect (libc : Libc) (h : Header) (fs : FileSystem)
    (authority : PolkitBackendKeyfileAuthority) :
  NoDup (discovered fs (rules_dirs_list authority) []) ->
  Forall (parses h fs) (discovered fs (rules_dirs_list authority) []) ->
  exists sorted,
    g_list_sort (discovered fs (rules_dirs_list authority) [])
      (rules_file_name_cmp libc)
    = Some sorted
    /\ discovered fs (rules_dirs_list authority) [] ≡ₚ sorted
    /\ StronglySorted path_before sorted
    /\ length (parsed h fs sorted) = length sorted
    /\ reload_scripts libc h fs authority = Returns (reloaded h fs authority sorted).
Proof.
  intros Hnd Hall.
  destruct (g_list_sort_spec libc _ (discovered_slash fs _) Hnd)
    as (sorted & Hsort & Hperm & Hsorted).
  assert (Hparse : Forall (parses h fs) sorted) by (rewrite <- Hperm; exact Hall).
  exists sorted. repeat split; try assumption.
  - apply parsed_length. exact Hparse.
  - rewrite reload_scripts_outcome. unfold reload_outcome.
    rewrite Hsort, (bool_decide_eq_true_2 _ Hparse). reflexivity.
Qed.

(** The sample directories in which every file parses, [/etc] first. *)
Lemma reload_scripts_effect_witness :
  exists sorted,
    g_list_sort (discovered clean_fs (rules_dirs_list etc_first) [])
      (rules_file_name_cmp sample_libc)
    = Some sorted
    /\ discovered clean_fs (rules_dirs_list etc_first) [] ≡ₚ sorted
    /\ StronglySorted path_before sorted
    /\ length (parsed sample_header clean_fs sorted) = length sorted
    /\ reload_scripts sample_libc sample_header clean_fs etc_first
       = Returns (reloaded sample_header clean_fs etc_first sorted).
Proof.
  apply (reload_scripts_effect sample_libc sample_header clean_fs etc_first).
  - apply (bool_decide_unpack _). vm_compute. exact I.
  - apply (bool_decide_unpack _). vm_compute. exact I.
Defined.

(** X17.  A reload is idempotent on the chain: the chain it leaves depends
    on the file system and the configured directories only, so that a second
    reload over the same file system, from the authority the first one left
    or from any other with the same directories, returns as well and leaves
    the same chain; the second reload emits its own signal. *)
Theorem reload_scripts_again (libc : Libc) (h : Header) (fs : FileSystem)
    (authority reloaded1 : PolkitBackendKeyfileAuthority) :
  reload_scripts libc h fs authority = Returns reloaded1 ->
  (exists reloaded2,
     reload_scripts libc h fs reloaded1 = Returns reloaded2
     /\ policy (priv reloaded2) = policy (priv reloaded1)
     /\ rules_dirs (priv reloaded2) = rules_dirs (priv authority)
     /\ emitted reloaded2 = emitted authority ++ ["changed"; "changed"])
  /\ forall other,
       rules_dirs (priv other) = rules_dirs (priv authority) ->
       (fun a => policy (priv a)) <$> reload_scripts libc h fs other
       = Returns (policy (priv reloaded1)).
Proof.
  rewrite reload_scripts_outcome. unfold reload_outcome.
  destruct (g_list_sort _ (rules_file_name_cmp libc)) as [sorted|] eqn:Hsort;
    [|discriminate].
  destruct (bool_decide (Forall (parses h fs) sorted)) eqn:Hall; [|discriminate].
  intros [= <-]. split.
  - exists (reloaded h fs (reloaded h fs authority sorted) sorted).
    rewrite reload_scripts_outcome. unfold reload_outcome.
    change (rules_dirs_list (reloaded h fs authority sorted))
      with (rules_dirs_list authority).
    rewrite Hsort, Hall. simpl. rewrite <- app_assoc. repeat split.
  - intros other Hdirs. rewrite reload_scripts_outcome. unfold reload_outcome.
    unfold rules_dirs_list at 1. rewrite Hdirs.
    fold (rules_dirs_list authority). rewrite Hsort, Hall. reflexivity.
Qed.

(** Two reloads over the samples in which every file parses. *)
Lemma reload_scripts_again_witness :
  (exists reloaded2,
     reload_scripts sample_libc sample_header clean_fs
       (reloaded sample_header clean_fs etc_first
          ["/etc/polkit-1/rules.d/same.keyrules";
           "/usr/share/polkit-1/rules.d/same.keyrules"])
     = Returns reloaded2
     /\ policy (priv reloaded2)
        = policy (priv (reloaded sample_header clean_fs etc_first
                          ["/etc/polkit-1/rules.d/same.keyrules";
                           "/usr/share/polkit-1/rules.d/same.keyrules"]))
     /\ rules_dirs (priv reloaded2) = rules_dirs (priv etc_first)
     /\ emitted reloaded2 = emitted etc_first ++ ["changed"; "changed"])
  /\ forall other,
       rules_dirs (priv other) = rules_dirs (priv etc_first) ->
       (fun a => policy (priv a))
         <$> reload_scripts sample_libc sample_header clean_fs other
       = Returns (policy (priv (reloaded sample_header clean_fs etc_first
                                  ["/etc/polkit-1/rules.d/same.keyrules";
                                   "/usr/share/polkit-1/rules.d/same.keyrules"]))).
Proof.
  apply (reload_scripts_again sample_libc sample_header clean_fs etc_first).
  vm_compute. reflexivity.
Defined.

(** *** [load_scripts] on its own *)

(** X19.  [load_scripts] itself, when every rule file is found once and
    parses, on an authority that still has a chain: the first file replaces
    the chain, so the chain becomes the rule sets of the files; when no file
    is found at all the old chain stays in place, although the closing line
    of the log reports 0 rules; the function emits no signal and leaves the
    directories alone. *)
Theorem load_scripts_replaces_chain (libc : Libc) (h : Header) (fs : FileSystem)
    (authority : PolkitBackendKeyfileAuthority) :
  NoDup (discovered fs (rules_dirs_list authority) []) ->
  Forall (parses h fs) (discovered fs (rules_dirs_list authority) []) ->
  exists sorted after,
    g_list_sort (discovered fs (rules_dirs_list authority) [])
      (rules_file_name_cmp libc)
    = Some sorted
    /\ load_scripts libc h fs authority = Returns after
    /\ policy (priv after)
       = match sorted with
         | [] => policy (priv authority)
         | _ => parsed h fs sorted
         end
    /\ List.last (logged after) LogReloadingRules
       = LogFinishedLoading (length sorted)
    /\ emitted after = emitted authority
    /\ rules_dirs (priv after) = rules_dirs (priv authority).
Proof.
  intros Hnd Hall.
  destruct (g_list_sort_spec libc _ (discovered_slash fs _) Hnd)
    as (sorted & Hsort & Hperm & _).
  assert (Hparse : Forall (parses h fs) sorted) by (rewrite <- Hperm; exact Hall).
  exists sorted, (loaded h fs authority sorted).
  split; [exact Hsort|]. split.
  - rewrite load_scripts_outcome, Hsort, (bool_decide_eq_true_2 _ Hparse).
    reflexivity.
  - simpl. rewrite app_assoc, last_last. repeat split.
Qed.

(** A file system without a rule file leaves the old chain. *)
Lemma load_scripts_replaces_chain_witness :
  exists sorted after,
    g_list_sort (discovered full_rule_fs (rules_dirs_list etc_first) [])
      (rules_file_name_cmp sample_libc)
    = Some sorted
    /\ load_scripts sample_libc sample_header full_rule_fs etc_first = Returns after
    /\ policy (priv after)
       = match sorted with
         | [] => policy (priv etc_first)
         | _ => parsed sample_header full_rule_fs sorted
         end
    /\ List.last (logged after) LogReloadingRules
       = LogFinishedLoading (length sorted)
    /\ emitted after = emitted etc_first
    /\ rules_dirs (priv after) = rules_dirs (priv etc_first).
Proof.
  apply (load_scripts_replaces_chain sample_libc sample_header full_rule_fs etc_first).
  - apply (bool_decide_unpack _). vm_compute. exact I.
  - apply (bool_decide_unpack _). vm_compute. exact I.
Defined.
(** *** Construction *)

(** X20.  The directories are fixed at construction.  On an authority whose
    directories are not set, setting [rules-dirs] succeeds and touches
    nothing else; [constructed] then supplies the two directories of the
    build when the value was NULL and keeps the value otherwise, an empty
    vector included; after that the directories are set, a second
    [constructed] changes nothing, and setting [rules-dirs] again fails its
    assertion. *)
Theorem construction_fixes_rules_dirs (c : Config)
    (authority : PolkitBackendKeyfileAuthority) (value : option (list string)) :
  rules_dirs (priv authority) = None ->
  exists configured,
    polkit_backend_keyfile_authority_set_property authority PROP_RULES_DIRS value
    = Some configured
    /\ policy (priv configured) = policy (priv authority)
    /\ logged configured = logged authority
    /\ emitted configured = emitted authority
    /\ rules_dirs (priv (polkit_backend_keyfile_authority_constructed c configured))
       = Some (default [PACKAGE_SYSCONF_DIR c +:+ "/polkit-1/rules.d";
                        PACKAGE_DATA_DIR c +:+ "/polkit-1/rules.d"] value)
    /\ polkit_backend_keyfile_authority_constructed c
         (polkit_backend_keyfile_authority_constructed c configured)
       = polkit_backend_keyfile_authority_constructed c configured
    /\ forall again,
         polkit_backend_keyfile_authority_set_property
           (polkit_backend_keyfile_authority_constructed c configured)
           PROP_RULES_DIRS again
         = None.
Proof.
  intros Hnull.
  exists (set_rules_dirs authority value).
  unfold polkit_backend_keyfile_authority_set_property,
    polkit_backend_keyfile_authority_constructed.
  rewrite Z.eqb_refl, Hnull.
  destruct value as [dirs|]; simpl; repeat split.
Qed.

(** No value given: the two directories of the build. *)
Lemma construction_fixes_rules_dirs_witness :
  exists configured,
    polkit_backend_keyfile_authority_set_property fresh_authority PROP_RULES_DIRS None
    = Some configured
    /\ policy (priv configured) = policy (priv fresh_authority)
    /\ logged configured = logged fresh_authority
    /\ emitted configured = emitted fresh_authority
    /\ rules_dirs (priv (polkit_backend_keyfile_authority_constructed
                           sample_config configured))
       = Some (default [PACKAGE_SYSCONF_DIR sample_config +:+ "/polkit-1/rules.d";
                        PACKAGE_DATA_DIR sample_config +:+ "/polkit-1/rules.d"] None)
    /\ polkit_backend_keyfile_authority_constructed sample_config
         (polkit_backend_keyfile_authority_constructed sample_config configured)
       = polkit_backend_keyfile_authority_constructed sample_config configured
    /\ forall again,
         polkit_backend_keyfile_authority_set_property
           (polkit_backend_keyfile_authority_constructed sample_config configured)
           PROP_RULES_DIRS again
         = None.
Proof.
  apply (construction_fixes_rules_dirs sample_config fresh_authority None).
  reflexivity.
Defined.
